(** * Realtime Database transactions: [runTransaction] and the optimistic
    transaction engine behind it.

    Part I embeds [packages/database/src/exp/Transaction.ts]: the public
    [runTransaction] entry point with its validation, its option defaulting
    and its completion callback [promiseComplete].

    Part II is the transaction engine (pending-write registry, transaction
    queue, runner) that [repoStartTransaction] hands the transaction to. *)

From stdpp Require Import base decidable option strings numbers list.

(** A path is the ordered sequence of its segments. *)
Abbreviation Path := (list string).

(** A JavaScript [Error] object. *)
Record Error := { message : string }.

(** What a JavaScript [throw] can carry here: a bare string or an [Error]. *)
Inductive Thrown :=
| ThrownString (s : string)
| ThrownError (e : Error).

(* ================================================================== *)
(** * Part I: Transaction.ts *)
(* ================================================================== *)

Module Transaction.

(** The child index a snapshot is ordered by. *)
Inductive Index := PRIORITY_INDEX | KEY_INDEX | VALUE_INDEX.

(** [interface TransactionOptions { readonly applyLocally?: boolean }] *)
Record TransactionOptions := { applyLocally : option bool }.

(** The two reserved meta-keys [runTransaction] compares the key with. *)
Definition is_meta_key (k : string) : Prop := k = ".length" ∨ k = ".keys".

#[global] Instance is_meta_key_dec k : Decision (is_meta_key k).
Proof. unfold is_meta_key. apply _. Defined.

(** The segments of a path that name its strict ancestors: all but the
    final key. *)
Definition ancestor_keys (p : Path) : list string := take (length p - 1) p.

Section Transaction.

Context {Repo Node Update : Type}.

(** [validateWritablePath(fnName, path)] of core/util/validation: it either
    returns ([None]) or throws ([Some thrown]). Its body is not part of
    Transaction.ts, so [runTransaction] is parametrised by it. *)
Variable validateWritablePath : string → Path → option Thrown.

(** [ReferenceImpl]: a repo and a path. *)
Record ReferenceImpl := { _repo : Repo; _path : Path }.

(** Modelled from the spec: the [key] getter of a reference lives in
    Reference_impl.ts; it is the final key of the path, [null] at the root. *)
Definition key (ref : ReferenceImpl) : option string := last (_path ref).

(** A [DatabaseReference] handed to the modular API is either a modular
    reference or a compat wrapper that holds one in [_delegate]. *)
Inductive DatabaseReference :=
| Modular (r : ReferenceImpl)
| Compat (_delegate : ReferenceImpl).

Definition getModularInstance (ref : DatabaseReference) : ReferenceImpl :=
  match ref with
  | Modular r => r
  | Compat d => d
  end.

Record DataSnapshot := {
  _node : option Node;
  ref : ReferenceImpl;
  _index : Index
}.

(** [class TransactionResult { committed; snapshot }] *)
Record TransactionResult := {
  committed : bool;
  snapshot : DataSnapshot
}.

(** ** The Deferred and its promise *)

(** Modelled from the spec: [Deferred] comes from the util package; its
    promise is a single-assignment result cell, resolved at most once: the
    first [resolve] or [reject] settles it and later calls change nothing. *)
Inductive PromiseState :=
| Pending
| Fulfilled (r : TransactionResult)
| Rejected (e : Error).

Record Deferred := { promise : PromiseState }.

(** The two methods of a [Deferred] a caller can invoke. *)
Inductive DeferredCall :=
| deferred_resolve (r : TransactionResult)
| deferred_reject (e : Error).

Definition settle (s : PromiseState) (c : DeferredCall) : PromiseState :=
  match s with
  | Pending =>
      match c with
      | deferred_resolve r => Fulfilled r
      | deferred_reject e => Rejected e
      end
  | _ => s
  end.

(** The state of the promise after a sequence of calls on its Deferred. *)
Definition settle_all (s : PromiseState) (cs : list DeferredCall) : PromiseState :=
  foldl settle s cs.

(** How many of the calls [cs] assigned the cell, starting from [s]. *)
Fixpoint assignments (s : PromiseState) (cs : list DeferredCall) : nat :=
  match cs with
  | [] => 0
  | c :: cs' =>
      (match s with Pending => 1 | _ => 0 end) + assignments (settle s c) cs'
  end.

(** ** [promiseComplete] *)

(** The completion callback built by [runTransaction] for the reference
    [ref]; the result is the list of calls it makes on the Deferred. *)
Definition promiseComplete (ref : ReferenceImpl)
    (error : option Error) (committed : bool) (node : option Node)
    : list DeferredCall :=
  match error with
  | Some e => [deferred_reject e]
  | None =>
      let dataSnapshot :=
        {| _node := node;
           ref := {| _repo := _repo ref; _path := _path ref |};
           _index := PRIORITY_INDEX |} in
      [deferred_resolve {| committed := committed; snapshot := dataSnapshot |}]
  end.

(** The arguments the engine passes to the completion callback. *)
Definition Completion : Type := option Error * bool * option Node.

(** ** Effects of [runTransaction] *)

(** The handle [onValue] returns. *)
Inductive Unsubscribe := Unwatch (r : ReferenceImpl).

(** The calls [runTransaction] makes on its collaborators, in order. *)
Inductive Call :=
| validateWritablePath_call (fnName : string) (path : Path)
| new_Deferred
| onValue_call (r : ReferenceImpl)
| repoStartTransaction_call
    (repo : Repo) (path : Path) (transactionUpdate : Update)
    (onComplete : option Error → bool → option Node → list DeferredCall)
    (unwatcher : Unsubscribe) (applyLocally : bool).

(** A computation: the calls made so far and either a thrown value or a
    result. *)
Definition M (A : Type) : Type := list Call * (Thrown + A).

Definition trace {A} (m : M A) : list Call := m.1.
Definition outcome {A} (m : M A) : Thrown + A := m.2.

#[local] Instance M_ret : MRet M := λ A x, ([], inr x).
#[local] Instance M_bind : MBind M := λ A B f m,
  match m.2 with
  | inl t => (m.1, inl t)
  | inr x => (m.1 ++ (f x).1, (f x).2)
  end.

Definition throw {A} (t : Thrown) : M A := ([], inl t).
Definition call {A} (c : Call) (x : A) : M A := ([c], inr x).

Definition do_validateWritablePath (fnName : string) (path : Path) : M unit :=
  match validateWritablePath fnName path with
  | Some t => ([validateWritablePath_call fnName path], inl t)
  | None => call (validateWritablePath_call fnName path) ()
  end.

(** [onValue(ref, callback)] of Reference_impl.ts is not part of
    Transaction.ts: it returns the unsubscribe handle of the watch ([None])
    or throws ([Some thrown]). *)
Variable onValue : ReferenceImpl → option Thrown.

(** [repoStartTransaction(repo, path, update, onComplete, unwatcher,
    applyLocally)] of core/Repo is not part of Transaction.ts. While it runs
    it may call [onComplete], and it may throw: it is taken as the
    completions it makes before it is over, in order, and what it throws in
    the end, if anything. *)
Variable repoStartTransaction :
  Repo → Path → Update → bool → list Completion * option Thrown.

Definition do_onValue (ref : ReferenceImpl) : M Unsubscribe :=
  match onValue ref with
  | Some t => ([onValue_call ref], inl t)
  | None => call (onValue_call ref) (Unwatch ref)
  end.

(** The call of [repoStartTransaction]; when it returns, the result is the
    list of calls the completions made on the Deferred meanwhile. *)
Definition do_repoStartTransaction (ref : ReferenceImpl)
    (transactionUpdate : Update) (unwatcher : Unsubscribe)
    (applyLocally : bool) : M (list DeferredCall) :=
  let started :=
    repoStartTransaction (_repo ref) (_path ref) transactionUpdate
      applyLocally in
  ([repoStartTransaction_call (_repo ref) (_path ref) transactionUpdate
      (promiseComplete ref) unwatcher applyLocally],
   match started.2 with
   | Some t => inl t
   | None => inr (started.1 ≫= λ c, promiseComplete ref c.1.1 c.1.2 c.2)
   end).

(** The final key when it is one of the two reserved meta-keys. *)
Definition reserved_key (ref : ReferenceImpl) : option string :=
  match key ref with
  | Some k => if decide (is_meta_key k) then Some k else None
  | None => None
  end.

(** [runTransaction]: the calls it makes and what it throws or returns; the
    promise it returns is given by the state it is in at that moment. *)
Definition runTransaction (ref : DatabaseReference) (transactionUpdate : Update)
    (options : option TransactionOptions) : M PromiseState :=
  let ref := getModularInstance ref in
  _ ← do_validateWritablePath "Reference.transaction" (_path ref);
  match reserved_key ref with
  | Some k =>
      throw (ThrownString
        ("Reference.transaction failed: " +:+ k +:+ " is a read-only object."))
  | None =>
      let applyLocally := default true (options ≫= applyLocally) in
      deferred ← call new_Deferred {| promise := Pending |};
      unwatcher ← do_onValue ref;
      settled ← do_repoStartTransaction ref transactionUpdate unwatcher
                  applyLocally;
      mret (settle_all (promise deferred) settled)
  end.

(** Whether a call starts a transaction in the engine. *)
Definition is_repoStartTransaction (c : Call) : Prop :=
  match c with
  | repoStartTransaction_call _ _ _ _ _ _ => True
  | _ => False
  end.

End Transaction.

End Transaction.

(* ================================================================== *)
(** * Part II: the optimistic transaction engine *)
(* ================================================================== *)

(** Modelled from the spec: the engine that [repoStartTransaction] enters
    (core/Repo) is not among the sources; every definition of this module
    follows the design document (sections 3 to 5): the data model, the
    Pending-Write Registry, the Transaction Queue and the Transaction
    Runner. *)
Module Engine.

(** ** Values of the synchronized tree *)

(** Modelled from the spec: the tree nodes of core/snap are not among the
    sources; a value is empty, a leaf, or an object with named children. *)
#[warnings="-register-all"]
Inductive Value :=
| VNull
| VNum (n : Z)
| VStr (s : string)
| VObj (children : list (string * Value)).

Fixpoint alist_get {A} (d : A) (k : string) (l : list (string * A)) : A :=
  match l with
  | [] => d
  | (k', x) :: l' => if decide (k' = k) then x else alist_get d k l'
  end.

Fixpoint alist_set {A} (k : string) (x : A) (l : list (string * A))
    : list (string * A) :=
  match l with
  | [] => [(k, x)]
  | (k', y) :: l' =>
      if decide (k' = k) then (k, x) :: l' else (k', y) :: alist_set k x l'
  end.

Definition children_of (v : Value) : list (string * Value) :=
  match v with
  | VObj kids => kids
  | _ => []
  end.

(** Modelled from the spec: the value stored at a path below a node. *)
Fixpoint getAt (p : Path) (v : Value) : Value :=
  match p with
  | [] => v
  | k :: p' => getAt p' (alist_get VNull k (children_of v))
  end.

(** Modelled from the spec: a write at a path sets the whole subtree there
    and is a part of the value of every ancestor. *)
Fixpoint setAt (p : Path) (x : Value) (v : Value) : Value :=
  match p with
  | [] => x
  | k :: p' =>
      VObj (alist_set k (setAt p' x (alist_get VNull k (children_of v)))
              (children_of v))
  end.

(** ** Data model (section 3) *)

(** Modelled from the spec: [PendingWrite { path, value, writeId, visible }]. *)
Record PendingWrite := {
  pw_path : Path;
  pw_value : Value;
  writeId : nat;
  visible : bool
}.

(** Modelled from the spec: the four statuses of a TransactionEntry. *)
Inductive Status := RUN | SENT | COMPLETED | SENT_NEEDS_ABORT.

#[global] Instance Status_eq_dec : EqDecision Status.
Proof. solve_decision. Defined.

(** Modelled from the spec: what one invocation of the caller's update
    function does (4.3, step 2): it returns a defined value, returns
    [undefined], or raises. *)
Inductive UpdateOutcome :=
| Defined (v : Value)
| Undefined
| Raised (e : Error).

(** Modelled from the spec: [TransactionEntry { path, updateFn, order,
    status, currentInputSnapshot, currentOutputValue, applyLocally }]. Two
    fields are book-keeping of the runner: [currentWriteId] is the
    PendingWrite registered by the attempt in flight, [retryCount] the number
    of conflicts so far (the retry counter of section 7). *)
Record TransactionEntry := {
  path : Path;
  updateFn : Value → UpdateOutcome;
  order : nat;
  status : Status;
  currentInputSnapshot : Value;
  currentOutputValue : option Value;
  applyLocally : bool;
  currentWriteId : option nat;
  retryCount : nat
}.

(** Modelled from the spec: why a transaction ended without committing
    (section 7, Aborted): the update function returned [undefined], or an
    external overwrite canceled the write. *)
Inductive AbortCondition := UpdateReturnedUndefined | WriteCanceled.

(** Modelled from the spec: [TransactionResult { committed, finalSnapshot }]. *)
Record TransactionResult := {
  committed : bool;
  finalSnapshot : Value
}.

(** Modelled from the spec: the terminal outcome of a transaction (section 1:
    committed-with-value, aborted, or failed-with-error). *)
Inductive Outcome :=
| Committed (final : Value)
| Aborted (why : AbortCondition) (final : Value)
| Failed (e : Error).

Definition result_of (o : Outcome) : Error + TransactionResult :=
  match o with
  | Committed v => inr {| committed := true; finalSnapshot := v |}
  | Aborted _ v => inr {| committed := false; finalSnapshot := v |}
  | Failed e => inl e
  end.

(** Modelled from the spec: a conditional write handed to the sync engine
    ([submitConditionalWrite(path, value, versionToken)]), tagged with the
    order of the transaction it belongs to. *)
Record ConditionalWrite := {
  cw_order : nat;
  cw_path : Path;
  cw_value : Value;
  cw_precondition : Value
}.

(** Modelled from the spec: one sync session: the last-known server tree,
    the registry, the queue, the log of submitted conditional writes and
    the log of delivered results. *)
Record Engine := {
  serverCache : Value;
  registry : list PendingWrite;
  nextWriteId : nat;
  queue : list TransactionEntry;
  nextOrder : nat;
  submitted : list ConditionalWrite;
  delivered : list (TransactionEntry * Outcome)
}.

Definition init (server : Value) : Engine :=
  {| serverCache := server; registry := []; nextWriteId := 0; queue := [];
     nextOrder := 0; submitted := []; delivered := [] |}.

Definition set_serverCache (v : Value) (s : Engine) : Engine :=
  {| serverCache := v; registry := registry s; nextWriteId := nextWriteId s;
     queue := queue s; nextOrder := nextOrder s; submitted := submitted s;
     delivered := delivered s |}.

Definition set_queue (q : list TransactionEntry) (s : Engine) : Engine :=
  {| serverCache := serverCache s; registry := registry s;
     nextWriteId := nextWriteId s; queue := q; nextOrder := nextOrder s;
     submitted := submitted s; delivered := delivered s |}.

Definition with_status (st : Status) (t : TransactionEntry) : TransactionEntry :=
  {| path := path t; updateFn := updateFn t; order := order t; status := st;
     currentInputSnapshot := currentInputSnapshot t;
     currentOutputValue := currentOutputValue t;
     applyLocally := applyLocally t; currentWriteId := currentWriteId t;
     retryCount := retryCount t |}.

Definition with_input (v : Value) (t : TransactionEntry) : TransactionEntry :=
  {| path := path t; updateFn := updateFn t; order := order t;
     status := status t; currentInputSnapshot := v;
     currentOutputValue := currentOutputValue t;
     applyLocally := applyLocally t; currentWriteId := currentWriteId t;
     retryCount := retryCount t |}.

Definition with_output (v : Value) (w : option nat) (t : TransactionEntry)
    : TransactionEntry :=
  {| path := path t; updateFn := updateFn t; order := order t;
     status := status t; currentInputSnapshot := currentInputSnapshot t;
     currentOutputValue := Some v;
     applyLocally := applyLocally t; currentWriteId := w;
     retryCount := retryCount t |}.

(** ** 4.1 Pending-Write Registry *)

(** Modelled from the spec: [overlayedValue(path)]: the last-known server
    value with the visible pending writes applied in writeId order. *)
Definition overlay (server : Value) (ws : list PendingWrite) : Value :=
  foldl (λ acc w, if visible w then setAt (pw_path w) (pw_value w) acc else acc)
        server ws.

Definition overlayedValue (p : Path) (s : Engine) : Value :=
  getAt p (overlay (serverCache s) (registry s)).

(** Modelled from the spec: [addWrite(path, value) -> writeId]. *)
Definition addWrite (p : Path) (v : Value) (s : Engine) : nat * Engine :=
  (nextWriteId s,
   {| serverCache := serverCache s;
      registry := registry s ++
        [{| pw_path := p; pw_value := v; writeId := nextWriteId s;
            visible := true |}];
      nextWriteId := S (nextWriteId s); queue := queue s;
      nextOrder := nextOrder s; submitted := submitted s;
      delivered := delivered s |}).

(** Modelled from the spec: [removeWrite(writeId)], idempotent. *)
Definition removeWrite (id : nat) (s : Engine) : Engine :=
  {| serverCache := serverCache s;
     registry := filter (λ w, writeId w ≠ id) (registry s);
     nextWriteId := nextWriteId s; queue := queue s;
     nextOrder := nextOrder s; submitted := submitted s;
     delivered := delivered s |}.

(** Removes the PendingWrite of an entry, if it registered one. *)
Definition removeWriteOf (t : TransactionEntry) (s : Engine) : Engine :=
  match currentWriteId t with
  | Some id => removeWrite id s
  | None => s
  end.

(** ** 4.2 Transaction Queue *)

(** Two paths overlap when one is a prefix of the other. *)
Definition overlaps (p q : Path) : Prop := p `prefix_of` q ∨ q `prefix_of` p.

#[global] Instance overlaps_dec p q : Decision (overlaps p q).
Proof. unfold overlaps. apply _. Defined.

Definition sent_on (p : Path) (t : TransactionEntry) : Prop :=
  path t = p ∧ status t = SENT.

Definition run_on (p : Path) (t : TransactionEntry) : Prop :=
  path t = p ∧ status t = RUN.

#[global] Instance sent_on_dec p t : Decision (sent_on p t).
Proof. unfold sent_on. apply _. Defined.

#[global] Instance run_on_dec p t : Decision (run_on p t).
Proof. unfold run_on. apply _. Defined.

(** Modelled from the spec: [enqueue(path, updateFn, applyLocally)] inserts a
    new RUN entry in increasing [order]. *)
Definition enqueue (p : Path) (f : Value → UpdateOutcome) (local : bool)
    (s : Engine) : Engine :=
  {| serverCache := serverCache s; registry := registry s;
     nextWriteId := nextWriteId s;
     queue := queue s ++
       [{| path := p; updateFn := f; order := nextOrder s; status := RUN;
           currentInputSnapshot := VNull; currentOutputValue := None;
           applyLocally := local; currentWriteId := None; retryCount := 0 |}];
     nextOrder := S (nextOrder s); submitted := submitted s;
     delivered := delivered s |}.

(** Modelled from the spec: [nextSendable(path)]: the earliest RUN entry for
    [path], provided no entry for [path] is currently SENT. *)
Definition nextSendable (p : Path) (s : Engine) : option TransactionEntry :=
  if decide (Exists (sent_on p) (queue s)) then None
  else head (filter (run_on p) (queue s)).

(** Modelled from the spec: the runner mutates a queued entry in place;
    [store t] replaces the queued entry of the same order by [t]. *)
Definition store (t : TransactionEntry) (s : Engine) : Engine :=
  set_queue ((λ u, if decide (order u = order t) then t else u) <$> queue s) s.

(** Modelled from the spec: [markSent(entry)]. *)
Definition markSent (t : TransactionEntry) (s : Engine) : Engine :=
  store (with_status SENT t) s.

(** Modelled from the spec: [markCompleted(entry, result)]: the entry becomes
    COMPLETED, is dequeued, and its result is delivered. *)
Definition markCompleted (t : TransactionEntry) (o : Outcome) (s : Engine)
    : Engine :=
  {| serverCache := serverCache s; registry := registry s;
     nextWriteId := nextWriteId s;
     queue := filter (λ u, order u ≠ order t) (queue s);
     nextOrder := nextOrder s; submitted := submitted s;
     delivered := delivered s ++ [(with_status COMPLETED t, o)] |}.

(** Modelled from the spec: completing an entry also removes the
    PendingWrite it registered, so that none outlives its transaction. *)
Definition complete (t : TransactionEntry) (o : Outcome) (s : Engine) : Engine :=
  markCompleted t o (removeWriteOf t s).

Definition submitConditionalWrite (w : ConditionalWrite) (s : Engine) : Engine :=
  {| serverCache := serverCache s; registry := registry s;
     nextWriteId := nextWriteId s; queue := queue s;
     nextOrder := nextOrder s; submitted := submitted s ++ [w];
     delivered := delivered s |}.

(** Modelled from the spec: completes the entries of [l] one after the
    other, each with the outcome [g] assigns to it. *)
Definition completeAll (g : TransactionEntry → Outcome)
    (l : list TransactionEntry) (s : Engine) : Engine :=
  foldl (λ acc t, complete t (g t) acc) s l.

(** Modelled from the spec: [abortAllDescendants(path)]: every queued entry
    on an overlapping path is aborted as write-canceled, with the value
    locally visible at its path when the overwrite is notified. *)
Definition abortAllDescendants (p : Path) (s : Engine) : Engine :=
  completeAll (λ t, Aborted WriteCanceled (overlayedValue (path t) s))
              (filter (λ t, overlaps p (path t)) (queue s)) s.

(** ** 4.3 Transaction Runner *)

(** Modelled from the spec: the input of an attempt: the locally visible
    value on the first attempt, the authoritative value the server supplied
    with the conflict on a retry. *)
Definition attemptInput (t : TransactionEntry) (s : Engine) : Value :=
  if decide (retryCount t = 0) then overlayedValue (path t) s
  else currentInputSnapshot t.

(** Modelled from the spec: the precondition of the conditional write: the
    server value that produced the input. *)
Definition attemptPrecondition (t : TransactionEntry) (s : Engine) : Value :=
  if decide (retryCount t = 0) then getAt (path t) (serverCache s)
  else currentInputSnapshot t.

(** Modelled from the spec: step 2 of the state machine, for the head
    sendable entry of [p]. *)
Definition attempt (p : Path) (s : Engine) : Engine :=
  match nextSendable p s with
  | None => s
  | Some t =>
      let input := attemptInput t s in
      let t1 := with_input input t in
      match updateFn t input with
      | Defined v =>
          let s1 := if applyLocally t then (addWrite (path t) v s).2 else s in
          let w := if applyLocally t then Some (nextWriteId s) else None in
          submitConditionalWrite
            {| cw_order := order t; cw_path := path t; cw_value := v;
               cw_precondition := attemptPrecondition t s |}
            (markSent (with_output v w t1) s1)
      | Undefined =>
          complete t1 (Aborted UpdateReturnedUndefined input) s
      | Raised e =>
          complete t1 (Failed e) s
      end
  end.

(** Modelled from the spec: the server's answer to a conditional write
    (4.3, step 3): accept, reject with the authoritative value, or reject
    with a hard error. *)
Inductive Verdict :=
| Accept
| RejectConflict (authoritative : Value)
| RejectHard (e : Error).

Definition sentEntry (k : nat) (s : Engine) : option TransactionEntry :=
  head (filter (λ t, order t = k ∧ status t = SENT) (queue s)).

(** Modelled from the spec: after a conflict the entry goes back to RUN for
    one more attempt, on the authoritative value [v]. *)
Definition rerun (v : Value) (t : TransactionEntry) : TransactionEntry :=
  {| path := path t; updateFn := updateFn t; order := order t; status := RUN;
     currentInputSnapshot := v; currentOutputValue := currentOutputValue t;
     applyLocally := applyLocally t; currentWriteId := None;
     retryCount := S (retryCount t) |}.

(** Modelled from the spec: step 3 of the state machine, for the SENT entry
    of order [k]. *)
Definition serverVerdict (k : nat) (v : Verdict) (s : Engine) : Engine :=
  match sentEntry k s with
  | None => s
  | Some t =>
      match v with
      | Accept =>
          let final := default VNull (currentOutputValue t) in
          complete t (Committed final)
            (set_serverCache (setAt (path t) final (serverCache s)) s)
      | RejectConflict a => store (rerun a t) (removeWriteOf t s)
      | RejectHard e => complete t (Failed e) s
      end
  end.

(** ** Events *)

(** Modelled from the spec: what can happen to a sync session: a caller
    starts a transaction, the runner serves a path, the server answers a
    conditional write, the server pushes a value, or a non-transactional
    write is notified. Events are handled one at a time (section 5). *)
Inductive Event :=
| RunTransaction (p : Path) (f : Value → UpdateOutcome) (local : bool)
| Attempt (p : Path)
| ServerVerdict (k : nat) (v : Verdict)
| ServerPush (p : Path) (v : Value)
| NotifyOverwrite (p : Path).

Definition step (s : Engine) (e : Event) : Engine :=
  match e with
  | RunTransaction p f local => enqueue p f local s
  | Attempt p => attempt p s
  | ServerVerdict k v => serverVerdict k v s
  | ServerPush p v => set_serverCache (setAt p v (serverCache s)) s
  | NotifyOverwrite p => abortAllDescendants p s
  end.

Definition run (s : Engine) (es : list Event) : Engine := foldl step s es.

(** The orders of the queued entries. *)
Definition queued (s : Engine) : list nat := order <$> queue s.

(** ** Invariants of a session *)

(** A queued entry is waiting or in flight. *)
Definition queue_statuses (s : Engine) : Prop :=
  ∀ t, t ∈ queue s → status t = RUN ∨ status t = SENT.

(** Two SENT entries on one path are the same transaction. *)
Definition one_sent_per_path (s : Engine) : Prop :=
  ∀ t u, t ∈ queue s → u ∈ queue s →
         status t = SENT → status u = SENT → path t = path u →
         order t = order u.

(** Orders handed out so far lie below [nextOrder]. *)
Definition orders_bounded (s : Engine) : Prop :=
  (∀ t, t ∈ queue s → order t < nextOrder s) ∧
  (∀ d, d ∈ delivered s → order d.1 < nextOrder s) ∧
  (∀ w, w ∈ submitted s → cw_order w < nextOrder s).

(** An entry that has not been attempted has no conditional write. *)
Definition fresh_unsubmitted (s : Engine) : Prop :=
  ∀ t, t ∈ queue s → status t = RUN → retryCount t = 0 →
       ∀ w, w ∈ submitted s → cw_order w ≠ order t.

(** A delivered transaction is no longer queued. *)
Definition delivered_dequeued (s : Engine) : Prop :=
  ∀ d, d ∈ delivered s → order d.1 ∉ queued s.

Record wf (s : Engine) : Prop := {
  wf_statuses : queue_statuses s;
  wf_one_sent : one_sent_per_path s;
  wf_nodup : NoDup (queued s);
  wf_bounded : orders_bounded s;
  wf_fresh : fresh_unsubmitted s;
  wf_dequeued : delivered_dequeued s
}.

(** The transaction of order [k] has left the queue for good. *)
Definition gone (k : nat) (s : Engine) : Prop :=
  k < nextOrder s ∧ k ∉ queued s.

End Engine.

(* ================================================================== *)
(** * Sample inputs *)
(* ================================================================== *)

Module Samples.

Import Transaction.

(** Modelled from the spec: core/util/validation is not among the sources;
    the design only says that a read-only target path is refused
    synchronously. This validator refuses the paths of the read-only
    [.info] subtree with an [Error] and accepts every other path. *)
Definition validateWritablePath_info (fnName : string) (path : Path)
    : option Thrown :=
  match path with
  | ".info" :: _ =>
      Some (ThrownError
              {| message := fnName +:+ " failed = Can't modify data under /.info/" |})
  | _ => None
  end.

(** A repo is named by its database URL; an update function maps the current
    value to what it wants written. *)
Definition SampleUpdate : Type := Engine.Value → Engine.UpdateOutcome.

(** A watch that can always be added. *)
Definition onValue_returns (r : ReferenceImpl (Repo := string))
    : option Thrown := None.

(** A sample [repoStartTransaction]. It runs the update function once, on an
    empty location, before it returns: a defined value leaves the
    transaction in flight, [undefined] completes it at once as not
    committed, and what the update function raises is thrown on. *)
Definition repoStartTransaction_once (repo : string) (path : Path)
    (u : SampleUpdate) (applyLocally : bool)
    : list (Completion (Node := Engine.Value)) * option Thrown :=
  match u Engine.VNull with
  | Engine.Defined _ => ([], None)
  | Engine.Undefined => ([(None, false, Some Engine.VNull)], None)
  | Engine.Raised e => ([], Some (ThrownError e))
  end.

Definition run_sample (r : DatabaseReference (Repo := string))
    (u : SampleUpdate) (o : option TransactionOptions)
    : M (Repo := string) (Node := Engine.Value) (Update := SampleUpdate) PromiseState :=
  runTransaction validateWritablePath_info onValue_returns
    repoStartTransaction_once r u o.

Definition db : string := "https://example.firebaseio.com".

Definition at_path (p : Path) : DatabaseReference (Repo := string) :=
  Modular {| _repo := db; _path := p |}.

(** [v => (v || 0) + 1] *)
Definition increment : SampleUpdate := λ v,
  match v with
  | Engine.VNum n => Engine.Defined (Engine.VNum (n + 1))
  | _ => Engine.Defined (Engine.VNum 1)
  end.

(** [() => undefined] *)
Definition decline : SampleUpdate := λ _, Engine.Undefined.

(** [() => { throw new Error('boom') }] *)
Definition boom : SampleUpdate := λ _, Engine.Raised {| message := "boom" |}.

(** The server tree [{ counter: 5 }]. *)
Definition server5 : Engine.Value := Engine.VObj [("counter", Engine.VNum 5)].

(** Two increments are queued on [/counter] and the runner serves the path
    twice: the first is sent, the second has to wait. *)
Definition two_increments : list Engine.Event :=
  [Engine.RunTransaction ["counter"] increment true;
   Engine.RunTransaction ["counter"] increment true;
   Engine.Attempt ["counter"];
   Engine.Attempt ["counter"]].

Definition first_increment : Engine.TransactionEntry :=
  {| Engine.path := ["counter"]; Engine.updateFn := increment;
     Engine.order := 0; Engine.status := Engine.SENT;
     Engine.currentInputSnapshot := Engine.VNum 5;
     Engine.currentOutputValue := Some (Engine.VNum 6);
     Engine.applyLocally := true; Engine.currentWriteId := Some 0;
     Engine.retryCount := 0 |}.

Definition second_increment : Engine.TransactionEntry :=
  {| Engine.path := ["counter"]; Engine.updateFn := increment;
     Engine.order := 1; Engine.status := Engine.RUN;
     Engine.currentInputSnapshot := Engine.VNull;
     Engine.currentOutputValue := None;
     Engine.applyLocally := true; Engine.currentWriteId := None;
     Engine.retryCount := 0 |}.

(** A transaction whose update function declines to write. *)
Definition declined : Engine.TransactionEntry :=
  {| Engine.path := ["counter"]; Engine.updateFn := decline;
     Engine.order := 0; Engine.status := Engine.RUN;
     Engine.currentInputSnapshot := Engine.VNull;
     Engine.currentOutputValue := None;
     Engine.applyLocally := true; Engine.currentWriteId := None;
     Engine.retryCount := 0 |}.

End Samples.

(* ================================================================== *)
(** * Part III: the rest of Transaction.ts *)
(* ================================================================== *)

Module TransactionMore.

Import Transaction.

Section TransactionMore.

Context {Repo Node Update Json : Type}.

(** ** Counting the calls of a trace *)

Definition is_validate (c : Call (Repo := Repo) (Node := Node) (Update := Update))
    : bool :=
  match c with validateWritablePath_call _ _ => true | _ => false end.

Definition is_new_Deferred (c : Call (Repo := Repo) (Node := Node) (Update := Update))
    : bool :=
  match c with new_Deferred => true | _ => false end.

Definition is_onValue (c : Call (Repo := Repo) (Node := Node) (Update := Update))
    : bool :=
  match c with onValue_call _ => true | _ => false end.

Definition is_start (c : Call (Repo := Repo) (Node := Node) (Update := Update))
    : bool :=
  match c with repoStartTransaction_call _ _ _ _ _ _ => true | _ => false end.

Definition count {A} (f : A → bool) (l : list A) : nat :=
  length (List.filter f l).

(** ** [TransactionResult.toJSON] *)

(** [DataSnapshot.toJSON()] of Reference_impl.ts is not part of
    Transaction.ts; [toJSON] is parametrised by it. *)
Variable snapshot_toJSON : DataSnapshot (Repo := Repo) (Node := Node) → Json.

(** The value of a property of the object [toJSON] returns. *)
Inductive JsonValue :=
| JsonBool (b : bool)
| JsonOf (j : Json).

(** [toJSON(): object]: the object literal with its two properties, in the
    order they are written. *)
Definition toJSON (r : TransactionResult (Repo := Repo) (Node := Node))
    : list (string * JsonValue) :=
  [("committed", JsonBool (committed r));
   ("snapshot", JsonOf (snapshot_toJSON (snapshot r)))].

(** Reading a property of an object literal. *)
Fixpoint property (k : string) (obj : list (string * JsonValue))
    : option JsonValue :=
  match obj with
  | [] => None
  | (k', v) :: obj' => if decide (k' = k) then Some v else property k obj'
  end.

End TransactionMore.

End TransactionMore.

(* ================================================================== *)
(** * Part IV: the App Check API *)
(* ================================================================== *)

(** The functions of the App Check [api.ts]: [activate],
    [setTokenAutoRefreshEnabled], [getToken] and [onTokenChanged]. *)
Module AppCheck.

(** The fields of a [FirebaseApp] the API reads. *)
Record FirebaseApp := {
  name : string;
  automaticDataCollectionEnabled : bool
}.

#[global] Instance FirebaseApp_eq_dec : EqDecision FirebaseApp.
Proof. solve_decision. Defined.

(** What the API throws: the [ALREADY_ACTIVATED] error of the error factory,
    with the app name it is created with, or the error of a token result. *)
Inductive Failure :=
| ALREADY_ACTIVATED (appName : string)
| TokenError (e : Error).

(** [AppCheckTokenResult { token; error? }] *)
Record AppCheckTokenResult := {
  token : string;
  error : option Error
}.

(** [ListenerType] *)
Inductive ListenerType := INTERNAL | EXTERNAL.

Section AppCheck.

(** [PlatformLogger]: the platform-logger provider; [Custom]: an attestation
    provider that is not a reCAPTCHA provider; [Refresher]: the token
    refresher object; [Rest]: the fields of the state this file does not
    touch; [Fn]: the functions callers pass in. *)
Context {PlatformLogger Custom Refresher Rest Fn Store : Type}.

(** The provider a caller passes to [activate]: a [ReCAPTCHAV3Provider]
    (what [instanceof ReCAPTCHAV3Provider] recognises) or any other. *)
Inductive AppCheckProvider :=
| CustomProvider (p : Custom)
| ReCAPTCHAV3Provider (siteKey : string).

(** What the state holds as provider: the provider as passed, or the
    [ReCAPTCHAV3ProviderInternal] built around a reCAPTCHA provider. *)
Inductive StoredProvider :=
| Public (p : AppCheckProvider)
| ReCAPTCHAV3ProviderInternal
    (app : FirebaseApp) (siteKey : string) (platformLoggerProvider : PlatformLogger).

(** [AppCheckState]: the four fields this file reads or writes, and the
    others, which every object spread copies. *)
Record AppCheckState := {
  activated : bool;
  provider : option StoredProvider;
  isTokenAutoRefreshEnabled : option bool;
  tokenRefresher : option Refresher;
  rest : Rest
}.

(** [getState(app)] and [setState(app, state)] of state.ts are not part of
    this file; the API is parametrised by them. *)
Variable getState : Store → FirebaseApp → AppCheckState.
Variable setState : FirebaseApp → AppCheckState → Store → Store.

(** A function registered as a token listener. *)
Inductive Listener :=
| Noop
| Plain (f : Fn)
| Bound (f : Fn) (this : nat)
| ObserverAsFunction (this : nat).

(** The calls the API makes on its collaborators. *)
Inductive Effect :=
| initializeRecaptcha (app : FirebaseApp) (siteKey : string)
| tokenRefresher_start (r : Refresher)
| tokenRefresher_stop (r : Refresher)
| addTokenListener (app : FirebaseApp) (platformLoggerProvider : PlatformLogger)
    (type : ListenerType) (nextFn errorFn : Listener)
| removeTokenListener (app : FirebaseApp) (nextFn : Listener).

(** A computation over the state store: the store afterwards, the calls
    made, and either what was thrown or the result. *)
Definition M (A : Type) : Type := Store → Store * list Effect * (Failure + A).

Definition store_after {A} (r : Store * list Effect * (Failure + A)) : Store := r.1.1.
Definition effects {A} (r : Store * list Effect * (Failure + A)) : list Effect := r.1.2.
Definition result {A} (r : Store * list Effect * (Failure + A)) : Failure + A := r.2.

#[local] Instance M_ret : MRet M := λ A x s, (s, [], inr x).
#[local] Instance M_bind : MBind M := λ A B f m s,
  match (m s).2 with
  | inl e => ((m s).1, inl e)
  | inr x => ((f x (m s).1.1).1.1, (m s).1.2 ++ (f x (m s).1.1).1.2, (f x (m s).1.1).2)
  end.

Definition throw {A} (e : Failure) : M A := λ s, (s, [], inl e).
Definition effect (e : Effect) : M unit := λ s, (s, [e], inr ()).
Definition get_state (app : FirebaseApp) : M AppCheckState :=
  λ s, (s, [], inr (getState s app)).
Definition set_state (app : FirebaseApp) (st : AppCheckState) : M unit :=
  λ s, (setState app st s, [], inr ()).

(** ** [activate] *)

Definition activate (app : FirebaseApp) (provider : AppCheckProvider)
    (platformLoggerProvider : PlatformLogger)
    (isTokenAutoRefreshEnabled : option bool) : M unit :=
  state ← get_state app;
  if activated state then throw (ALREADY_ACTIVATED (name app))
  else
    let newState :=
      {| activated := true;
         provider := Some (Public provider);
         isTokenAutoRefreshEnabled :=
           Some (match isTokenAutoRefreshEnabled with
                 | None => automaticDataCollectionEnabled app
                 | Some b => b
                 end);
         tokenRefresher := tokenRefresher state;
         rest := rest state |} in
    _ ← set_state app newState;
    match provider with
    | ReCAPTCHAV3Provider siteKey =>
        let internalProvider :=
          ReCAPTCHAV3ProviderInternal app siteKey platformLoggerProvider in
        _ ← set_state app
              {| activated := activated newState;
                 provider := Some internalProvider;
                 isTokenAutoRefreshEnabled := AppCheck.isTokenAutoRefreshEnabled newState;
                 tokenRefresher := tokenRefresher newState;
                 rest := rest newState |};
        effect (initializeRecaptcha app siteKey)
    | CustomProvider _ => mret ()
    end.

(** ** [setTokenAutoRefreshEnabled] *)

Definition setTokenAutoRefreshEnabled (app : FirebaseApp)
    (isTokenAutoRefreshEnabled : bool) : M unit :=
  state ← get_state app;
  _ ← match tokenRefresher state with
      | Some r =>
          if isTokenAutoRefreshEnabled then effect (tokenRefresher_start r)
          else effect (tokenRefresher_stop r)
      | None => mret ()
      end;
  set_state app
    {| activated := activated state;
       provider := provider state;
       isTokenAutoRefreshEnabled := Some isTokenAutoRefreshEnabled;
       tokenRefresher := tokenRefresher state;
       rest := rest state |}.

(** ** [getToken] *)

(** [getToken] after its [await]: [result] is what the internal [getToken]
    resolved with. *)
Definition getToken (result : AppCheckTokenResult) : Failure + AppCheckTokenResult :=
  match error result with
  | Some e => inl (TokenError e)
  | None => inr {| token := token result; error := None |}
  end.

(** ** [onTokenChanged] *)

(** A [PartialObserver]: an object, named by [self], with optional [next],
    [error] and [complete] methods. *)
Record PartialObserver := {
  self : nat;
  next : option Fn;
  observer_error : option Fn;
  complete : option Fn
}.

(** The first argument after the providers: a function or an observer. A
    plain function has no [next] and no [error] property. *)
Inductive NextOrObserver :=
| NextFn (f : Fn)
| Observer (o : PartialObserver).

Definition nextFn_of (onNextOrObserver : NextOrObserver) : Listener :=
  match onNextOrObserver with
  | Observer o =>
      match next o with
      | Some f => Bound f (self o)
      | None => ObserverAsFunction (self o)
      end
  | NextFn f => Plain f
  end.

Definition errorFn_of (onNextOrObserver : NextOrObserver) (onError : option Fn)
    : Listener :=
  let from_argument :=
    match onError with
    | Some g => Plain g
    | None => Noop
    end in
  match onNextOrObserver with
  | Observer o =>
      match observer_error o with
      | Some f => Bound f (self o)
      | None => from_argument
      end
  | NextFn _ => from_argument
  end.

(** [onTokenChanged]: the calls it makes, and the calls its returned
    unsubscribe function makes when invoked. *)
Definition onTokenChanged (app : FirebaseApp)
    (platformLoggerProvider : PlatformLogger)
    (onNextOrObserver : NextOrObserver)
    (onError onCompletion : option Fn) : list Effect * list Effect :=
  let nextFn := nextFn_of onNextOrObserver in
  let errorFn := errorFn_of onNextOrObserver onError in
  ([addTokenListener app platformLoggerProvider EXTERNAL nextFn errorFn],
   [removeTokenListener app nextFn]).

End AppCheck.

End AppCheck.

(* ================================================================== *)
(** * Part V: initialising Analytics *)
(* ================================================================== *)

From stdpp Require Import gmap.

(** [validateIndexedDB] and [initializeAnalytics] of the Analytics
    initialisation file. *)
Module Analytics.

(** The two fields [DynamicConfig] and [MinimalDynamicConfig] share. *)
Record DynamicConfig := {
  measurementId : string;
  appId : string
}.

(** A value of a gtag config property. *)
Inductive ConfigValue :=
| CString (s : string)
| CBool (b : bool)
| CNumber (n : Z).

(** [AnalyticsSettings { config? }]; a config is a JavaScript object used as
    a map from property names to values. *)
Record AnalyticsSettings := {
  config : option (gmap string ConfigValue)
}.

(** What [@firebase/util] reports about IndexedDB: whether it is available,
    and what [validateIndexedDBOpenable()] rejects with, if it does. *)
Record IndexedDB {E : Type} := {
  isIndexedDBAvailable : bool;
  validateIndexedDBOpenable : option E
}.
Arguments IndexedDB : clear implicits.

Section Analytics.

(** [E]: what a promise rejects with; [Date]: what [new Date()] gives. *)
Context {E Date : Type}.

(** [ORIGIN_KEY] and [GA_FID_KEY] of constants.ts are not part of this file;
    the functions are parametrised by them. *)
Variables ORIGIN_KEY GA_FID_KEY : string.

(** What is handed to the logger. The text of [INDEXEDDB_UNAVAILABLE] comes
    from the error factory; it is kept as the error code with its
    [errorInfo]. *)
Inductive LogEntry :=
| warn_INDEXEDDB_UNAVAILABLE (errorInfo : string + E)
| warn (text : string)
| error (e : E).

(** ** [validateIndexedDB] *)

Definition validateIndexedDB (idb : IndexedDB E) : list LogEntry * bool :=
  if negb (isIndexedDBAvailable idb) then
    ([warn_INDEXEDDB_UNAVAILABLE
        (inl "IndexedDB is not available in this environment.")],
     false)
  else
    match validateIndexedDBOpenable idb with
    | Some e => ([warn_INDEXEDDB_UNAVAILABLE (inr e)], false)
    | None => ([], true)
    end.

(** ** [initializeAnalytics] *)

(** Whether a string is truthy: it is, unless it is empty. *)
Definition truthy (s : option string) : Prop :=
  match s with
  | Some t => t ≠ ""
  | None => False
  end.

#[global] Instance truthy_dec s : Decision (truthy s).
Proof. destruct s; apply _. Defined.

Definition mismatch_warning (localId fetchedId : string) : string :=
  "The measurement ID in the local Firebase config (" +:+ localId +:+ ")" +:+
  " does not match the measurement ID fetched from the server (" +:+
  fetchedId +:+ ")." +:+
  " To ensure analytics events are always sent to the correct Analytics property," +:+
  " update the" +:+
  " measurement ID field in the local config or remove it from the local config.".

(** The [then] callback on the dynamic config: it records the app id of the
    measurement id and warns when the local measurement id differs. *)
Definition onConfigFetched (localId : option string) (config : DynamicConfig)
    (measurementIdToAppId : gmap string string)
    : gmap string string * list LogEntry :=
  (<[measurementId config := appId config]> measurementIdToAppId,
   if decide (truthy localId ∧ Some (measurementId config) ≠ localId)
   then [warn (mismatch_warning (default "" localId) (measurementId config))]
   else []).

(** The config object passed to gtag: the user's config, or a new empty
    object, with the three assignments made on it in order. *)
Definition configProperties (options : option AnalyticsSettings)
    (fid : option string) : gmap string ConfigValue :=
  let c0 := default ∅ (options ≫= config) in
  let c1 := <[ORIGIN_KEY := CString "firebase"]> c0 in
  let c2 := <["update" := CBool true]> c1 in
  match fid with
  | Some f => <[GA_FID_KEY := CString f]> c2
  | None => c2
  end.

(** What [initializeAnalytics] does on the page and on gtag, in order. *)
Inductive GtagEffect :=
| insertScriptTag (dataLayerName measurementId : string)
| gtag_js (now : Date)
| gtag_config (measurementId : string) (props : gmap string ConfigValue).

(** What the collaborators answer during one call: how the two promises
    settle, what the page and the clock say, and which of the two promises
    settles first (it decides the rejection when both reject). *)
Record Env := {
  fetchDynamicConfigWithRetry : E + DynamicConfig;
  indexedDB : IndexedDB E;
  installations_getId : E + string;
  findGtagScriptOnPage : bool;
  now : Date;
  config_settles_first : bool
}.

(** What one call leaves behind. The two promise chains run independently,
    so their log entries are kept apart; [effects] are the calls made after
    the [await], in order; [options_config] is the content of the caller's
    [options.config] object afterwards. *)
Record Outcome := {
  result : E + string;
  dynamicConfigPromisesList : list (E + DynamicConfig);
  measurementIdToAppId : gmap string string;
  configLog : list LogEntry;
  fidLog : list LogEntry;
  getId_called : bool;
  effects : list GtagEffect;
  options_config : option (gmap string ConfigValue)
}.

(** [fidPromise]: the installation id when IndexedDB is usable,
    [undefined] otherwise. *)
Definition fidPromise (env : Env) : E + option string :=
  if (validateIndexedDB (indexedDB env)).2 then
    match installations_getId env with
    | inl e => inl e
    | inr fid => inr (Some fid)
    end
  else inr None.

(** [Promise.all] of the two promises: both values, or the rejection of the
    promise that rejects first. *)
Definition awaitAll (env : Env) : E + (DynamicConfig * option string) :=
  match fetchDynamicConfigWithRetry env, fidPromise env with
  | inr dynamicConfig, inr fid => inr (dynamicConfig, fid)
  | inl e, inr _ => inl e
  | inr _, inl e => inl e
  | inl e1, inl e2 => inl (if config_settles_first env then e1 else e2)
  end.

Definition initializeAnalytics (localMeasurementId : option string)
    (promisesList : list (E + DynamicConfig))
    (idToAppId : gmap string string)
    (dataLayerName : string) (options : option AnalyticsSettings)
    (env : Env) : Outcome :=
  let dynamicConfigPromise := fetchDynamicConfigWithRetry env in
  let fetched :=
    match dynamicConfigPromise with
    | inr config => onConfigFetched localMeasurementId config idToAppId
    | inl e => (idToAppId, [error e])
    end in
  let validated := validateIndexedDB (indexedDB env) in
  match awaitAll env with
  | inl e =>
      {| result := inl e;
         dynamicConfigPromisesList := promisesList ++ [dynamicConfigPromise];
         measurementIdToAppId := fetched.1;
         configLog := fetched.2;
         fidLog := validated.1;
         getId_called := validated.2;
         effects := [];
         options_config := options ≫= config |}
  | inr (dynamicConfig, fid) =>
      let props := configProperties options fid in
      {| result := inr (measurementId dynamicConfig);
         dynamicConfigPromisesList := promisesList ++ [dynamicConfigPromise];
         measurementIdToAppId := fetched.1;
         configLog := fetched.2;
         fidLog := validated.1;
         getId_called := validated.2;
         effects :=
           (if findGtagScriptOnPage env then []
            else [insertScriptTag dataLayerName (measurementId dynamicConfig)])
           ++ [gtag_js (now env);
               gtag_config (measurementId dynamicConfig) props];
         options_config :=
           match options ≫= config with
           | Some _ => Some props
           | None => None
           end |}
  end.

End Analytics.

End Analytics.

(* ================================================================== *)
(** * More sample inputs *)
(* ================================================================== *)

Module MoreSamples.

(** ** App Check *)

(** A state store as a function from apps to states. *)
Definition FnStore : Type :=
  AppCheck.FirebaseApp →
  AppCheck.AppCheckState (PlatformLogger := unit) (Custom := string)
    (Refresher := nat) (Rest := list string).

Definition fn_getState (s : FnStore) (app : AppCheck.FirebaseApp) := s app.

Definition fn_setState (app : AppCheck.FirebaseApp)
    (st : AppCheck.AppCheckState (PlatformLogger := unit) (Custom := string)
            (Refresher := nat) (Rest := list string))
    (s : FnStore) : FnStore :=
  λ a, if decide (a = app) then st else s a.

(** The state of an app that was never touched; one with a refresher. *)
Definition fresh_state
    : AppCheck.AppCheckState (PlatformLogger := unit) (Custom := string)
        (Refresher := nat) (Rest := list string) :=
  {| AppCheck.activated := false; AppCheck.provider := None;
     AppCheck.isTokenAutoRefreshEnabled := None;
     AppCheck.tokenRefresher := None; AppCheck.rest := [] |}.

Definition refreshing_state
    : AppCheck.AppCheckState (PlatformLogger := unit) (Custom := string)
        (Refresher := nat) (Rest := list string) :=
  {| AppCheck.activated := true; AppCheck.provider := None;
     AppCheck.isTokenAutoRefreshEnabled := Some false;
     AppCheck.tokenRefresher := Some 7; AppCheck.rest := ["observer"] |}.

Definition fresh_store : FnStore := λ _, fresh_state.
Definition refreshing_store : FnStore := λ _, refreshing_state.

Definition app1 : AppCheck.FirebaseApp :=
  {| AppCheck.name := "[DEFAULT]";
     AppCheck.automaticDataCollectionEnabled := true |}.


(** An observer with a [next] and an [error] method. *)
Definition full_observer : AppCheck.PartialObserver (Fn := nat) :=
  {| AppCheck.self := 1; AppCheck.next := Some 10;
     AppCheck.observer_error := Some 11; AppCheck.complete := None |}.

(** ** Analytics *)

Definition fetched_config : Analytics.DynamicConfig :=
  {| Analytics.measurementId := "G-SERVER"; Analytics.appId := "1:23:web:45" |}.

Definition good_env : Analytics.Env (E := string) (Date := nat) :=
  {| Analytics.fetchDynamicConfigWithRetry := inr fetched_config;
     Analytics.indexedDB :=
       {| Analytics.isIndexedDBAvailable := true;
          Analytics.validateIndexedDBOpenable := None |};
     Analytics.installations_getId := inr "fid-1";
     Analytics.findGtagScriptOnPage := false;
     Analytics.now := 0;
     Analytics.config_settles_first := true |}.


(** A user config that tries to set the origin and the installation id. *)
Definition user_config : gmap string Analytics.ConfigValue :=
  <["origin" := Analytics.CString "mine"]>
    (<["firebase_id" := Analytics.CString "spoofed"]>
       (<["send_page_view" := Analytics.CBool false]> ∅)).

Definition user_options : Analytics.AnalyticsSettings :=
  {| Analytics.config := Some user_config |}.


(** The functions with the names the constants have in the SDK
    (['origin'], ['firebase_id']) and the function store. *)
Definition sample_initializeAnalytics :=
  Analytics.initializeAnalytics (E := string) (Date := nat)
    "origin" "firebase_id".

Definition sample_configProperties :=
  Analytics.configProperties "origin" "firebase_id".

Definition sample_activate :=
  AppCheck.activate (Fn := nat) fn_getState fn_setState.

Definition sample_setTokenAutoRefreshEnabled :=
  AppCheck.setTokenAutoRefreshEnabled (Fn := nat) fn_getState fn_setState.

End MoreSamples.

(* ================================================================== *)
(** * Properties of Transaction.ts *)
(* ================================================================== *)

Import Transaction.

Section TransactionFacts.

Context {Repo Node Update : Type}.
Variable validateWritablePath : string → Path → option Thrown.
Variable onValue : ReferenceImpl (Repo := Repo) → option Thrown.
Variable repoStartTransaction :
  Repo → Path → Update → bool → list (Completion (Node := Node)) * option Thrown.

Implicit Types (ref : DatabaseReference (Repo := Repo)) (u : Update)
  (o : option TransactionOptions).

Local Abbreviation runTx :=
  (runTransaction validateWritablePath onValue repoStartTransaction).
Local Abbreviation fnName := "Reference.transaction".

Lemma reserved_key_Some (r : ReferenceImpl (Repo := Repo)) k :
  reserved_key r = Some k ↔ key r = Some k ∧ is_meta_key k.
Proof.
  unfold reserved_key. destruct (key r) as [k'|].
  - case_decide; split.
    + intros [= ->]. done.
    + intros [[= ->] _]. done.
    + done.
    + intros [[= ->] ?]. done.
  - split; [done | intros [? _]; done].
Qed.

Lemma reserved_key_None (r : ReferenceImpl (Repo := Repo)) :
  reserved_key r = None ↔ ∀ k, key r = Some k → ¬ is_meta_key k.
Proof.
  unfold reserved_key. destruct (key r) as [k'|].
  - case_decide; split.
    + done.
    + intros Hk. destruct (Hk k'); done.
    + intros _ k [= <-]. done.
    + done.
  - split; done.
Qed.

(** The ways a call of [runTransaction] can go. *)
Lemma runTransaction_refused ref u o t :
  validateWritablePath fnName (_path (getModularInstance ref)) = Some t →
  runTx ref u o =
    ([validateWritablePath_call fnName (_path (getModularInstance ref))], inl t).
Proof.
  intros Hv. unfold runTransaction, do_validateWritablePath.
  rewrite Hv. reflexivity.
Qed.

Lemma runTransaction_reserved ref u o k :
  validateWritablePath fnName (_path (getModularInstance ref)) = None →
  reserved_key (getModularInstance ref) = Some k →
  runTx ref u o =
    ([validateWritablePath_call fnName (_path (getModularInstance ref))],
     inl (ThrownString
            ("Reference.transaction failed: " +:+ k +:+ " is a read-only object."))).
Proof.
  intros Hv Hk. unfold runTransaction, do_validateWritablePath.
  rewrite Hv. unfold mbind, M_bind, call. cbn [fst snd].
  rewrite Hk. reflexivity.
Qed.

Lemma runTransaction_unwatched ref u o t :
  let r := getModularInstance ref in
  validateWritablePath fnName (_path r) = None →
  reserved_key r = None →
  onValue r = Some t →
  runTx ref u o =
    ([validateWritablePath_call fnName (_path r); new_Deferred; onValue_call r],
     inl t).
Proof.
  intros r Hv Hk Hw. unfold runTransaction, do_validateWritablePath.
  fold r. rewrite Hv. unfold mbind at 1, M_bind at 1, call at 1. cbn [fst snd].
  rewrite Hk. unfold do_onValue. rewrite Hw. reflexivity.
Qed.

Lemma runTransaction_started ref u o :
  let r := getModularInstance ref in
  let b := default true (o ≫= applyLocally) in
  validateWritablePath fnName (_path r) = None →
  reserved_key r = None →
  onValue r = None →
  runTx ref u o =
    ([validateWritablePath_call fnName (_path r);
      new_Deferred;
      onValue_call r;
      repoStartTransaction_call (_repo r) (_path r) u (promiseComplete r)
        (Unwatch r) b],
     match (repoStartTransaction (_repo r) (_path r) u b).2 with
     | Some t => inl t
     | None =>
         inr (settle_all Pending
                ((repoStartTransaction (_repo r) (_path r) u b).1
                   ≫= λ c, promiseComplete r c.1.1 c.1.2 c.2))
     end).
Proof.
  intros r b Hv Hk Hw. unfold runTransaction, do_validateWritablePath.
  fold r. rewrite Hv. unfold mbind at 1, M_bind at 1, call at 1. cbn [fst snd].
  rewrite Hk. unfold do_onValue. rewrite Hw.
  subst b. unfold do_repoStartTransaction, mbind, M_bind, call, mret, M_ret.
  cbn [fst snd app].
  by destruct (repoStartTransaction _ _ _ _) as [cs [t|]].
Qed.

(** A call of [repoStartTransaction] in the trace is the one
    [runTransaction] makes. *)
Lemma start_in_trace ref u o repo p u' cb unw b :
  repoStartTransaction_call repo p u' cb unw b ∈ trace (runTx ref u o) →
  validateWritablePath fnName (_path (getModularInstance ref)) = None ∧
  reserved_key (getModularInstance ref) = None ∧
  onValue (getModularInstance ref) = None ∧
  repo = _repo (getModularInstance ref) ∧
  p = _path (getModularInstance ref) ∧
  u' = u ∧
  cb = promiseComplete (getModularInstance ref) ∧
  unw = Unwatch (getModularInstance ref) ∧
  b = default true (o ≫= applyLocally).
Proof.
  destruct (validateWritablePath fnName (_path (getModularInstance ref)))
    as [t|] eqn:Hv.
  { rewrite (runTransaction_refused ref u o t Hv).
    intros Hc. by apply list_elem_of_singleton in Hc. }
  destruct (reserved_key (getModularInstance ref)) as [k|] eqn:Hk.
  { rewrite (runTransaction_reserved ref u o k Hv Hk).
    intros Hc. by apply list_elem_of_singleton in Hc. }
  destruct (onValue (getModularInstance ref)) as [t|] eqn:Hw.
  { rewrite (runTransaction_unwatched ref u o t Hv Hk Hw).
    unfold trace; cbn [fst]. rewrite !elem_of_cons, elem_of_nil.
    intros [?|[?|[?|[]]]]; done. }
  rewrite (runTransaction_started ref u o Hv Hk Hw). unfold trace; cbn [fst].
  rewrite !elem_of_cons, elem_of_nil.
  intros [?|[?|[?|[[= -> -> -> -> -> ->]|[]]]]]; done.
Qed.

(** C3. A reference whose path [validateWritablePath] refuses, or whose final
    key is [.length] or [.keys], makes [runTransaction] throw, and the call
    has neither created a Deferred nor invoked [repoStartTransaction]. *)
Theorem runTransaction_invalid_never_queued ref u o :
  is_Some (validateWritablePath fnName (_path (getModularInstance ref)))
    ∨ key (getModularInstance ref) = Some ".length"
    ∨ key (getModularInstance ref) = Some ".keys" →
  (∃ t, outcome (runTx ref u o) = inl t) ∧
  ∀ c, c ∈ trace (runTx ref u o) →
       ¬ is_repoStartTransaction c ∧ c ≠ new_Deferred.
Proof.
  intros H.
  destruct (validateWritablePath fnName (_path (getModularInstance ref)))
    as [t|] eqn:Hv.
  - rewrite (runTransaction_refused ref u o t Hv). split; [by eexists|].
    intros c Hc. apply list_elem_of_singleton in Hc as ->.
    split; [intros [] | discriminate].
  - assert (∃ k, reserved_key (getModularInstance ref) = Some k) as [k Hk].
    { destruct H as [[? [=]]|[H|H]]; eexists; apply reserved_key_Some;
        (split; [exact H|]); [by left | by right]. }
    rewrite (runTransaction_reserved ref u o k Hv Hk). split; [by eexists|].
    intros c Hc. apply list_elem_of_singleton in Hc as ->.
    split; [intros [] | discriminate].
Qed.

(** C4, as the code has it. The meta-key check looks at the final key only.
    For a reference one of whose strict ancestor segments is [.length] or
    [.keys]: when [validateWritablePath] refuses the path or the final key
    itself is reserved, [runTransaction] throws with no Deferred created and
    no call of [repoStartTransaction]; when the path is accepted and the
    final key is not reserved, the reserved ancestor stops nothing: the
    Deferred is created, the value watch is requested and, if [onValue]
    returns, [repoStartTransaction] is called with the transaction. *)
Theorem meta_key_check_ignores_ancestors ref u o :
  Exists is_meta_key (ancestor_keys (_path (getModularInstance ref))) →
  ((is_Some (validateWritablePath fnName (_path (getModularInstance ref)))
    ∨ ∃ k, key (getModularInstance ref) = Some k ∧ is_meta_key k) →
   (∃ t, outcome (runTx ref u o) = inl t) ∧
   ∀ c, c ∈ trace (runTx ref u o) →
        ¬ is_repoStartTransaction c ∧ c ≠ new_Deferred) ∧
  (validateWritablePath fnName (_path (getModularInstance ref)) = None →
   (∀ k, key (getModularInstance ref) = Some k → ¬ is_meta_key k) →
   new_Deferred ∈ trace (runTx ref u o) ∧
   onValue_call (getModularInstance ref) ∈ trace (runTx ref u o) ∧
   (onValue (getModularInstance ref) = None →
    Exists is_repoStartTransaction (trace (runTx ref u o)))).
Proof.
  intros _. split.
  - intros H.
    destruct (validateWritablePath fnName (_path (getModularInstance ref)))
      as [t|] eqn:Hv.
    + rewrite (runTransaction_refused ref u o t Hv). split; [by eexists|].
      intros c Hc. apply list_elem_of_singleton in Hc as ->.
      split; [intros [] | discriminate].
    + destruct H as [[? [=]]|(k & Hkey & Hm)].
      assert (reserved_key (getModularInstance ref) = Some k) as Hk
        by (by apply reserved_key_Some).
      rewrite (runTransaction_reserved ref u o k Hv Hk). split; [by eexists|].
      intros c Hc. apply list_elem_of_singleton in Hc as ->.
      split; [intros [] | discriminate].
  - intros Hv Hk. apply reserved_key_None in Hk.
    destruct (onValue (getModularInstance ref)) as [t|] eqn:Hw.
    + rewrite (runTransaction_unwatched ref u o t Hv Hk Hw).
      unfold trace; cbn [fst]. split; [|split; [|done]].
      * apply list_elem_of_further, list_elem_of_here.
      * do 2 apply list_elem_of_further. apply list_elem_of_here.
    + rewrite (runTransaction_started ref u o Hv Hk Hw).
      unfold trace; cbn [fst]. split; [|split].
      * apply list_elem_of_further, list_elem_of_here.
      * do 2 apply list_elem_of_further. apply list_elem_of_here.
      * intros _. do 3 apply Exists_cons_tl. by apply Exists_cons_hd.
Qed.

(** C9. Every transaction [runTransaction] starts is started with
    [applyLocally] equal to [true] when the options are omitted or leave it
    undefined, and with the given value otherwise. *)
Theorem applyLocally_defaults_to_true ref u o repo p u' cb unw b :
  repoStartTransaction_call repo p u' cb unw b ∈ trace (runTx ref u o) →
  b = match o with
      | None => true
      | Some opts =>
          match applyLocally opts with
          | None => true
          | Some given => given
          end
      end.
Proof.
  intros Hc. apply start_in_trace in Hc as (_ & _ & _ & _ & _ & _ & _ & _ & ->).
  destruct o as [[[given|]]|]; reflexivity.
Qed.

(** C10, as the code has it. [validateWritablePath] runs first: what it
    throws when it refuses the path is what [runTransaction] throws, whatever
    the key. When it has accepted the path and the final key is [.length] or
    [.keys], what [runTransaction] throws is the bare string
    ['Reference.transaction failed: <key> is a read-only object.'], not an
    [Error] object. *)
Theorem meta_key_throws_plain_string ref u o :
  (∀ t, validateWritablePath fnName (_path (getModularInstance ref)) = Some t →
        outcome (runTx ref u o) = inl t) ∧
  (validateWritablePath fnName (_path (getModularInstance ref)) = None →
   ∀ k, key (getModularInstance ref) = Some k → is_meta_key k →
        outcome (runTx ref u o) =
          inl (ThrownString
                 ("Reference.transaction failed: " +:+ k +:+
                  " is a read-only object."))
        ∧ ∀ e, outcome (runTx ref u o) ≠ inl (ThrownError e)).
Proof.
  split.
  - intros t Hv. by rewrite (runTransaction_refused ref u o t Hv).
  - intros Hv k Hkey Hk.
    assert (reserved_key (getModularInstance ref) = Some k) as Hr
      by (by apply reserved_key_Some).
    rewrite (runTransaction_reserved ref u o k Hv Hr). by split.
Qed.

(** The Deferred cell is assigned by the first call only. *)
Lemma assignments_settled (s : PromiseState (Repo := Repo) (Node := Node)) cs :
  s ≠ Pending → assignments s cs = 0.
Proof.
  revert s. induction cs as [|c cs IH]; intros s Hs; [done|].
  cbn [assignments]. rewrite IH; destruct s; done.
Qed.

Lemma assignments_at_most_once (s : PromiseState (Repo := Repo) (Node := Node)) cs :
  assignments s cs ≤ 1.
Proof.
  destruct cs as [|c cs]; cbn [assignments]; [lia|].
  rewrite assignments_settled; [destruct s; lia|].
  destruct s, c; done.
Qed.

Lemma started_callback ref u o repo p u' cb unw b :
  repoStartTransaction_call repo p u' cb unw b ∈ trace (runTx ref u o) →
  cb = promiseComplete {| _repo := repo; _path := p |}.
Proof.
  intros Hc.
  apply start_in_trace in Hc as (_ & _ & _ & -> & -> & _ & -> & _).
  by destruct (getModularInstance ref).
Qed.

(** C2. For the completion callback of a started transaction, every
    invocation makes exactly one call on the Deferred ([reject] when the
    error is non-null, [resolve] otherwise), and however often the callback
    is invoked the promise is assigned at most once. *)
Theorem promise_settled_at_most_once ref u o repo p u' cb unw b
    (invocations : list Completion) :
  repoStartTransaction_call repo p u' cb unw b ∈ trace (runTx ref u o) →
  Forall (λ c : Completion,
            (∃ e, c.1.1 = Some e ∧ cb c.1.1 c.1.2 c.2 = [deferred_reject e]) ∨
            (∃ r, c.1.1 = None ∧ cb c.1.1 c.1.2 c.2 = [deferred_resolve r]))
         invocations ∧
  assignments Pending (invocations ≫= λ c, cb c.1.1 c.1.2 c.2) ≤ 1.
Proof.
  intros Hc. apply started_callback in Hc as ->. split.
  - apply Forall_forall. intros [[[e|] c] n] _; cbn [fst snd promiseComplete].
    + left. by eexists.
    + right. by eexists.
  - apply assignments_at_most_once.
Qed.

(** C5. When the engine completes a started transaction with a non-null
    error, the callback makes the single call [deferred.reject(error)]: the
    pending promise becomes rejected with exactly that error and no
    [TransactionResult] is resolved. *)
Theorem hard_error_rejects_with_error ref u o repo p u' cb unw b
    (e : Error) (c : bool) (n : option Node) :
  repoStartTransaction_call repo p u' cb unw b ∈ trace (runTx ref u o) →
  cb (Some e) c n = [deferred_reject e] ∧
  settle_all Pending (cb (Some e) c n) = Rejected e ∧
  ∀ r, deferred_resolve r ∉ cb (Some e) c n.
Proof.
  intros Hc. apply started_callback in Hc as ->. cbn [promiseComplete].
  repeat split. intros r Hr. by apply list_elem_of_singleton in Hr.
Qed.

(** C6. When the engine completes a started transaction as aborted (null
    error, [committed = false]), the pending promise is fulfilled, not
    rejected, with a [TransactionResult] whose [committed] is [false] and
    whose snapshot holds the node passed at abort time, at the path the
    transaction was started on. *)
Theorem abort_resolves_uncommitted ref u o repo p u' cb unw b
    (n : option Node) :
  repoStartTransaction_call repo p u' cb unw b ∈ trace (runTx ref u o) →
  settle_all Pending (cb None false n) =
    Fulfilled {| committed := false;
                 snapshot := {| _node := n;
                                ref := {| _repo := repo; _path := p |};
                                _index := PRIORITY_INDEX |} |}
  ∧ ∀ e, deferred_reject e ∉ cb None false n.
Proof.
  intros Hc. apply started_callback in Hc as ->. cbn [promiseComplete].
  split; [done|]. intros e He. by apply list_elem_of_singleton in He.
Qed.

End TransactionFacts.

(** ** The same facts on sample references *)

Import Samples.

(** A reference under [.info] is refused before anything is queued. *)
Lemma runTransaction_invalid_never_queued_witness :
  (∃ t, outcome (run_sample (at_path [".info"; "connected"]) increment None)
        = inl t) ∧
  ∀ c, c ∈ trace (run_sample (at_path [".info"; "connected"]) increment None) →
       ¬ is_repoStartTransaction c ∧ c ≠ new_Deferred.
Proof.
  apply (runTransaction_invalid_never_queued (Node := Engine.Value)
           validateWritablePath_info onValue_returns repoStartTransaction_once
           (at_path [".info"; "connected"]) increment None).
  left. eexists. reflexivity.
Defined.

(** C4 fails on the code: the path [.length/counter] has the reserved name
    [.length] as a strict ancestor segment, yet [runTransaction] does not
    throw: it calls [repoStartTransaction] and, with the sample engine entry
    and an update function that returns a value, returns its promise. *)
Lemma reserved_ancestor_is_queued :
  Exists is_meta_key (ancestor_keys [".length"; "counter"]) ∧
  (¬ ∃ t, outcome (run_sample (at_path [".length"; "counter"]) increment None)
          = inl t) ∧
  Exists is_repoStartTransaction
    (trace (run_sample (at_path [".length"; "counter"]) increment None)).
Proof.
  split; [|split].
  - apply Exists_cons_hd. by left.
  - intros [t Ht]. vm_compute in Ht. discriminate.
  - vm_compute. do 3 apply Exists_cons_tl. by apply Exists_cons_hd.
Qed.

Lemma meta_key_check_ignores_ancestors_witness :
  new_Deferred
    ∈ trace (run_sample (at_path [".length"; "counter"]) increment None) ∧
  onValue_call (getModularInstance (at_path [".length"; "counter"]))
    ∈ trace (run_sample (at_path [".length"; "counter"]) increment None) ∧
  (onValue_returns (getModularInstance (at_path [".length"; "counter"])) = None →
   Exists is_repoStartTransaction
     (trace (run_sample (at_path [".length"; "counter"]) increment None))).
Proof.
  apply (meta_key_check_ignores_ancestors (Node := Engine.Value)
           validateWritablePath_info onValue_returns repoStartTransaction_once
           (at_path [".length"; "counter"]) increment None).
  - apply Exists_cons_hd. by left.
  - reflexivity.
  - intros k [= <-] [H|H]; discriminate H.
Defined.

Lemma applyLocally_defaults_to_true_witness :
  false = match Some {| applyLocally := Some false |} with
          | None => true
          | Some opts =>
              match applyLocally opts with
              | None => true
              | Some given => given
              end
          end.
Proof.
  apply (applyLocally_defaults_to_true (Node := Engine.Value)
           validateWritablePath_info onValue_returns repoStartTransaction_once (at_path ["counter"]) increment
           (Some {| applyLocally := Some false |})
           db ["counter"] increment
           (promiseComplete {| _repo := db; _path := ["counter"] |})
           (Unwatch {| _repo := db; _path := ["counter"] |}) false).
  vm_compute. do 3 apply list_elem_of_further. apply list_elem_of_here.
Defined.

(** C10 fails on the code as stated: the final key of [.info/.keys] is
    [.keys], but the path is refused first, so what is thrown is the
    validator's [Error], not the read-only string. *)
Lemma meta_key_under_info_throws_error :
  key (getModularInstance (at_path [".info"; ".keys"])) = Some ".keys" ∧
  outcome (run_sample (at_path [".info"; ".keys"]) increment None) =
    inl (ThrownError
           {| message :=
                "Reference.transaction failed = Can't modify data under /.info/" |})
  ∧ outcome (run_sample (at_path [".info"; ".keys"]) increment None) ≠
    inl (ThrownString "Reference.transaction failed: .keys is a read-only object.").
Proof. split; [reflexivity|]. split; [reflexivity|]. vm_compute. discriminate. Qed.

Lemma meta_key_throws_plain_string_witness :
  outcome (run_sample (at_path ["users"; ".length"]) increment None) =
    inl (ThrownString
           "Reference.transaction failed: .length is a read-only object.")
  ∧ ∀ e, outcome (run_sample (at_path ["users"; ".length"]) increment None)
         ≠ inl (ThrownError e).
Proof.
  apply (λ Hv, proj2 (meta_key_throws_plain_string (Node := Engine.Value)
                        validateWritablePath_info onValue_returns
                        repoStartTransaction_once
                        (at_path ["users"; ".length"]) increment None)
                 Hv ".length").
  - reflexivity.
  - reflexivity.
  - by left.
Defined.

Lemma promise_settled_at_most_once_witness :
  let cb := promiseComplete (Node := Engine.Value)
              {| _repo := db; _path := ["counter"] |} in
  let invocations : list Completion :=
    [(None, true, Some (Engine.VNum 6));
     (Some {| message := "disconnect" |}, false, None)] in
  Forall (λ c : Completion,
            (∃ e, c.1.1 = Some e ∧ cb c.1.1 c.1.2 c.2 = [deferred_reject e]) ∨
            (∃ r, c.1.1 = None ∧ cb c.1.1 c.1.2 c.2 = [deferred_resolve r]))
         invocations ∧
  assignments Pending (invocations ≫= λ c, cb c.1.1 c.1.2 c.2) ≤ 1.
Proof.
  apply (promise_settled_at_most_once (Node := Engine.Value)
           validateWritablePath_info onValue_returns repoStartTransaction_once (at_path ["counter"]) increment
           (Some {| applyLocally := Some true |})
           db ["counter"] increment _
           (Unwatch {| _repo := db; _path := ["counter"] |}) true).
  vm_compute. do 3 apply list_elem_of_further. apply list_elem_of_here.
Defined.

Lemma hard_error_rejects_with_error_witness :
  let cb := promiseComplete (Node := Engine.Value)
              {| _repo := db; _path := ["counter"] |} in
  let e := {| message := "permission_denied" |} in
  cb (Some e) false None = [deferred_reject e] ∧
  settle_all Pending (cb (Some e) false None) = Rejected e ∧
  ∀ r, deferred_resolve r ∉ cb (Some e) false None.
Proof.
  apply (hard_error_rejects_with_error (Node := Engine.Value)
           validateWritablePath_info onValue_returns repoStartTransaction_once (at_path ["counter"]) increment
           (Some {| applyLocally := Some true |})
           db ["counter"] increment _
           (Unwatch {| _repo := db; _path := ["counter"] |}) true).
  vm_compute. do 3 apply list_elem_of_further. apply list_elem_of_here.
Defined.

Lemma abort_resolves_uncommitted_witness :
  let cb := promiseComplete (Node := Engine.Value)
              {| _repo := db; _path := ["counter"] |} in
  settle_all Pending (cb None false (Some (Engine.VNum 5))) =
    Fulfilled {| committed := false;
                 snapshot := {| _node := Some (Engine.VNum 5);
                                ref := {| _repo := db; _path := ["counter"] |};
                                _index := PRIORITY_INDEX |} |}
  ∧ ∀ e, deferred_reject e ∉ cb None false (Some (Engine.VNum 5)).
Proof.
  apply (abort_resolves_uncommitted (Node := Engine.Value)
           validateWritablePath_info onValue_returns repoStartTransaction_once (at_path ["counter"]) decline
           (Some {| applyLocally := Some true |})
           db ["counter"] decline _
           (Unwatch {| _repo := db; _path := ["counter"] |}) true).
  vm_compute. do 3 apply list_elem_of_further. apply list_elem_of_here.
Defined.

(* ================================================================== *)
(** * Properties of the transaction engine *)
(* ================================================================== *)

Import Engine.

Section EngineFacts.

Implicit Types (s : Engine) (t u : TransactionEntry) (p q : Path)
  (o : Outcome) (k : nat) (l : list TransactionEntry).

(** ** What the queue operations find *)

Lemma nextSendable_Some p s t :
  nextSendable p s = Some t →
  t ∈ queue s ∧ run_on p t ∧ ∀ u, u ∈ queue s → ¬ sent_on p u.
Proof.
  unfold nextSendable. case_decide as Hex; [done|]. intros Hh.
  apply head_Some_elem_of, list_elem_of_filter in Hh as [Hrun Hin].
  repeat split; try done; try apply Hrun.
  intros u Hu Hs. apply Hex, Exists_exists. eauto.
Qed.

Lemma sentEntry_Some k s t :
  sentEntry k s = Some t → t ∈ queue s ∧ order t = k ∧ status t = SENT.
Proof.
  unfold sentEntry. intros Hh.
  apply head_Some_elem_of, list_elem_of_filter in Hh as [[? ?] ?]. done.
Qed.

(** ** Completing a batch of entries *)

Lemma removeWriteOf_fields t s :
  queue (removeWriteOf t s) = queue s ∧
  nextOrder (removeWriteOf t s) = nextOrder s ∧
  submitted (removeWriteOf t s) = submitted s ∧
  delivered (removeWriteOf t s) = delivered s ∧
  serverCache (removeWriteOf t s) = serverCache s.
Proof. unfold removeWriteOf. destruct (currentWriteId t); done. Qed.

Lemma complete_queue t o s :
  queue (complete t o s) = filter (λ u, order u ≠ order t) (queue s).
Proof.
  unfold complete. cbn. by destruct (removeWriteOf_fields t s) as (-> & _).
Qed.

Lemma complete_nextOrder t o s : nextOrder (complete t o s) = nextOrder s.
Proof.
  unfold complete. cbn. by destruct (removeWriteOf_fields t s) as (_ & -> & _).
Qed.

Lemma complete_submitted t o s : submitted (complete t o s) = submitted s.
Proof.
  unfold complete. cbn.
  by destruct (removeWriteOf_fields t s) as (_ & _ & -> & _).
Qed.

Lemma complete_delivered t o s :
  delivered (complete t o s) = delivered s ++ [(with_status COMPLETED t, o)].
Proof.
  unfold complete. cbn.
  by destruct (removeWriteOf_fields t s) as (_ & _ & _ & -> & _).
Qed.

Lemma completeAll_nextOrder g l s : nextOrder (completeAll g l s) = nextOrder s.
Proof.
  revert s. induction l as [|t l IH]; intros s; [done|].
  cbn. unfold completeAll in IH. by rewrite IH, complete_nextOrder.
Qed.

Lemma completeAll_submitted g l s : submitted (completeAll g l s) = submitted s.
Proof.
  revert s. induction l as [|t l IH]; intros s; [done|].
  cbn. unfold completeAll in IH. by rewrite IH, complete_submitted.
Qed.

Lemma completeAll_delivered g l s :
  delivered (completeAll g l s) =
  delivered s ++ ((λ t, (with_status COMPLETED t, g t)) <$> l).
Proof.
  revert s. induction l as [|t l IH]; intros s; cbn.
  - by rewrite app_nil_r.
  - unfold completeAll in IH. rewrite IH, complete_delivered.
    by rewrite <- app_assoc.
Qed.

Lemma completeAll_queue_elem g l s u :
  u ∈ queue (completeAll g l s) ↔ u ∈ queue s ∧ order u ∉ order <$> l.
Proof.
  revert s. induction l as [|t l IH]; intros s; cbn.
  - split; [intros ?; split; [done|apply not_elem_of_nil] | by intros [? _]].
  - unfold completeAll in IH. rewrite IH, complete_queue, list_elem_of_filter.
    rewrite not_elem_of_cons. tauto.
Qed.

Lemma completeAll_queue_sublist g l s :
  queue (completeAll g l s) `sublist_of` queue s.
Proof.
  revert s. induction l as [|t l IH]; intros s; cbn; [done|].
  unfold completeAll in IH. etrans; [apply IH|].
  rewrite complete_queue. apply sublist_filter.
Qed.

(** ** Three shapes of a state change, and why each keeps [wf] *)

(** The map [store] applies to the queue. *)
Lemma store_elem t' l x :
  x ∈ (λ u, if decide (order u = order t') then t' else u) <$> l →
  (x = t' ∧ order t' ∈ order <$> l) ∨ (x ∈ l ∧ order x ≠ order t').
Proof.
  intros (u & -> & Hu)%list_elem_of_fmap. case_decide as Ho.
  - left. split; [done|]. rewrite <- Ho. by apply list_elem_of_fmap_2.
  - right. done.
Qed.

Lemma fmap_same_orders (f : TransactionEntry → TransactionEntry) l :
  (∀ u, order (f u) = order u) → order <$> (f <$> l) = order <$> l.
Proof.
  intros Hf. rewrite <- list_fmap_compose. apply list_fmap_ext.
  intros _ u _. apply Hf.
Qed.

Lemma store_orders t' l :
  order <$> ((λ u, if decide (order u = order t') then t' else u) <$> l)
  = order <$> l.
Proof.
  rewrite <- list_fmap_compose. apply list_fmap_ext. intros _ u _. cbn.
  by case_decide.
Qed.

Lemma queued_bounded s k :
  orders_bounded s → k ∈ queued s → k < nextOrder s.
Proof.
  intros (Hq & _) (t & -> & Ht)%list_elem_of_fmap. by apply Hq.
Qed.

(** Entries leave the queue and their results are delivered. *)
Lemma wf_shrink s s' :
  wf s →
  queue s' `sublist_of` queue s →
  nextOrder s' = nextOrder s →
  submitted s' = submitted s →
  (∀ d, d ∈ delivered s' →
        d ∈ delivered s ∨ (order d.1 ∈ queued s ∧ order d.1 ∉ queued s')) →
  wf s'.
Proof.
  intros [Hst Hone Hnd Hbd Hfr Hdq] Hsub Hno Hsm Hdl.
  assert (∀ t, t ∈ queue s' → t ∈ queue s) as Hin
    by (intros t Ht; by eapply elem_of_sublist).
  assert (queued s' `sublist_of` queued s) as Hsubq
    by (unfold queued; by apply fmap_sublist).
  split.
  - intros t Ht. auto.
  - intros t u Ht Hu. auto.
  - by eapply sublist_NoDup.
  - destruct Hbd as (Hq & Hd & Hw). unfold orders_bounded.
    rewrite Hno, Hsm. repeat split; auto.
    intros d [Hd'|[Hd' _]]%Hdl; [auto|]. by apply queued_bounded.
  - intros t Ht. rewrite Hsm. auto.
  - intros d [Hd|[_ Hd]]%Hdl; [|done].
    intros Hk. apply (Hdq d Hd). by eapply elem_of_sublist.
Qed.

(** One queued entry is replaced by its next version [t'], and conditional
    writes of that transaction may be submitted. *)
Lemma wf_store s s' t' ws :
  wf s →
  order t' ∈ queued s →
  status t' = RUN ∨ status t' = SENT →
  ¬ (status t' = RUN ∧ retryCount t' = 0) →
  (status t' = SENT →
   ∀ u, u ∈ queue s → status u = SENT → path u = path t' →
        order u = order t') →
  queue s' = (λ u, if decide (order u = order t') then t' else u) <$> queue s →
  nextOrder s' = nextOrder s →
  submitted s' = submitted s ++ ws →
  (∀ w, w ∈ ws → cw_order w = order t') →
  delivered s' = delivered s →
  wf s'.
Proof.
  intros [Hst Hone Hnd Hbd Hfr Hdq] Hk Hstat Hnf Hsent Hq Hno Hsm Hws Hdl.
  assert (queued s' = queued s) as Hqd
    by (unfold queued; rewrite Hq; apply store_orders).
  split.
  - intros x Hx. rewrite Hq in Hx.
    apply store_elem in Hx as [[-> _]|[Hx _]]; auto.
  - intros x y Hx Hy Sx Sy Hp. rewrite Hq in Hx, Hy.
    apply store_elem in Hx as [[-> _]|[Hx Nx]];
      apply store_elem in Hy as [[-> _]|[Hy Ny]]; auto.
    symmetry. apply Hsent; auto.
  - by rewrite Hqd.
  - destruct Hbd as (Hbq & Hbd & Hbw). unfold orders_bounded.
    rewrite Hno, Hsm, Hdl.
    split; [|split; [done|]].
    + intros x Hx. rewrite Hq in Hx.
      apply store_elem in Hx as [[-> Ho]|[Hx _]]; [|auto].
      apply list_elem_of_fmap in Ho as (u & -> & Hu). auto.
    + intros w [Hw|Hw]%elem_of_app; [auto|]. rewrite (Hws w Hw).
      apply list_elem_of_fmap in Hk as (u & -> & Hu). auto.
  - intros x Hx Rx Fx w Hw. rewrite Hq in Hx. rewrite Hsm in Hw.
    apply store_elem in Hx as [[-> _]|[Hx Nx]]; [by destruct Hnf|].
    apply elem_of_app in Hw as [Hw|Hw]; [by eapply Hfr|].
    rewrite (Hws w Hw). done.
  - intros d Hd. rewrite Hqd. rewrite Hdl in Hd. auto.
Qed.

(** A new transaction joins the queue. *)
Lemma enqueue_elem p f local s t :
  t ∈ queue (enqueue p f local s) →
  t ∈ queue s ∨
  (order t = nextOrder s ∧ status t = RUN ∧ path t = p ∧ retryCount t = 0).
Proof.
  cbn. intros [Ht|Ht%list_elem_of_singleton]%elem_of_app; [by left|].
  right. by subst t.
Qed.

Lemma wf_enqueue p f local s : wf s → wf (enqueue p f local s).
Proof.
  intros [Hst Hone Hnd Hbd Hfr Hdq]. destruct Hbd as (Hbq & Hbd & Hbw).
  assert (nextOrder s ∉ queued s) as Hnew.
  { intros (u & Ho & Hu)%list_elem_of_fmap. apply Hbq in Hu. lia. }
  split.
  - intros t [Ht|(_ & Ht & _)]%enqueue_elem; auto.
  - intros t u [Ht|(_ & Ht & _)]%enqueue_elem [Hu|(_ & Hu & _)]%enqueue_elem;
      auto; congruence.
  - unfold queued, enqueue; cbn. rewrite fmap_app. apply NoDup_app.
    split; [done|]. split; [|apply NoDup_singleton].
    intros k Hk Hk'%list_elem_of_singleton. by subst k.
  - repeat split; cbn.
    + intros t [Ht|(Ht & _)]%enqueue_elem; [apply Hbq in Ht|]; lia.
    + intros d Hd. apply Hbd in Hd. lia.
    + intros w Hw. apply Hbw in Hw. lia.
  - intros t [Ht|(Ht & _)]%enqueue_elem Rt Ft w Hw; cbn in Hw.
    + by eapply Hfr.
    + apply Hbw in Hw. lia.
  - intros d Hd. unfold queued, enqueue; cbn. rewrite fmap_app.
    apply not_elem_of_app. split; [by apply Hdq|].
    cbn. intros Hk%list_elem_of_singleton. apply Hbd in Hd. lia.
Qed.

(** One entry completes, possibly after the registry or the server cache
    changed. *)
Lemma complete_not_queued t o s : order t ∉ queued (complete t o s).
Proof.
  unfold queued. rewrite complete_queue.
  intros (u & Ho & [Hu _]%list_elem_of_filter)%list_elem_of_fmap. done.
Qed.

Lemma wf_complete s s0 t o :
  wf s → order t ∈ queued s →
  queue s0 = queue s → nextOrder s0 = nextOrder s →
  submitted s0 = submitted s → delivered s0 = delivered s →
  wf (complete t o s0).
Proof.
  intros Hwf Ht Hq Hno Hsm Hdl. apply (wf_shrink s); [done|..].
  - rewrite complete_queue, Hq. apply sublist_filter.
  - by rewrite complete_nextOrder.
  - by rewrite complete_submitted.
  - intros d. rewrite complete_delivered, Hdl.
    intros [Hd|Hd%list_elem_of_singleton]%elem_of_app; [by left|].
    right. subst d. cbn. split; [done|].
    apply (complete_not_queued t o s0).
Qed.

Lemma wf_completeAll g l s :
  wf s → (∀ t, t ∈ l → t ∈ queue s) → wf (completeAll g l s).
Proof.
  intros Hwf Hl. apply (wf_shrink s); [done|..].
  - apply completeAll_queue_sublist.
  - apply completeAll_nextOrder.
  - apply completeAll_submitted.
  - intros d. rewrite completeAll_delivered.
    intros [Hd|(t & -> & Ht)%list_elem_of_fmap]%elem_of_app; [by left|].
    right. cbn. split; [by apply list_elem_of_fmap_2, Hl|].
    intros (u & Ho & [_ Hu]%completeAll_queue_elem)%list_elem_of_fmap.
    apply Hu. rewrite <- Ho. by apply list_elem_of_fmap_2.
Qed.

(** ** Every event keeps the session well-formed *)

Lemma wf_init server : wf (init server).
Proof.
  split; try (intros ? []%elem_of_nil; done).
  - intros ? ? []%elem_of_nil.
  - apply NoDup_nil_2.
  - repeat split; intros ? []%elem_of_nil.
Qed.

Lemma wf_attempt p s : wf s → wf (attempt p s).
Proof.
  intros Hwf. unfold attempt.
  destruct (nextSendable p s) as [t|] eqn:Hn; [|done].
  apply nextSendable_Some in Hn as (Ht & [Hp Hr] & Hns).
  destruct (updateFn t (attemptInput t s)) as [v| |e].
  - eapply (wf_store s _
              (with_status SENT
                 (with_output v
                    (if applyLocally t then Some (nextWriteId s) else None)
                    (with_input (attemptInput t s) t))) [_]);
      [done|..]; cbn.
    + by apply (list_elem_of_fmap_2 order).
    + by right.
    + intros [[=] _].
    + intros _ u Hu Su Pu. destruct (Hns u Hu). split; congruence.
    + by destruct (applyLocally t).
    + by destruct (applyLocally t).
    + by destruct (applyLocally t).
    + by intros w ->%list_elem_of_singleton.
    + by destruct (applyLocally t).
  - apply (wf_complete s); try done. cbn. by apply (list_elem_of_fmap_2 order).
  - apply (wf_complete s); try done. cbn. by apply (list_elem_of_fmap_2 order).
Qed.

Lemma wf_serverVerdict k v s : wf s → wf (serverVerdict k v s).
Proof.
  intros Hwf. unfold serverVerdict.
  destruct (sentEntry k s) as [t|] eqn:Hn; [|done].
  apply sentEntry_Some in Hn as (Ht & Hk & Hs).
  destruct v as [|a|e].
  - apply (wf_complete s); try done. cbn. by apply (list_elem_of_fmap_2 order).
  - destruct (removeWriteOf_fields t s) as (Hq & Hno & Hsm & Hdl & _).
    eapply (wf_store s _ (rerun a t) []); [done|..]; cbn.
    + by apply (list_elem_of_fmap_2 order).
    + by left.
    + intros [_ [=]].
    + intros [=].
    + by rewrite Hq.
    + done.
    + by rewrite app_nil_r.
    + intros w []%elem_of_nil.
    + done.
  - apply (wf_complete s); try done. cbn. by apply (list_elem_of_fmap_2 order).
Qed.

Lemma wf_step s e : wf s → wf (step s e).
Proof.
  intros Hwf. destruct e as [p f local|p|k v|p v|p]; cbn.
  - by apply wf_enqueue.
  - by apply wf_attempt.
  - by apply wf_serverVerdict.
  - apply (wf_shrink s); try done. intros d Hd. by left.
  - apply wf_completeAll; [done|]. by intros t [_ ?]%list_elem_of_filter.
Qed.

Lemma wf_run s es : wf s → wf (run s es).
Proof.
  revert s. induction es as [|e es IH]; intros s Hwf; [done|].
  apply IH. by apply wf_step.
Qed.

(** ** What one event can add *)

Lemma step_footprint s e :
  nextOrder s ≤ nextOrder (step s e) ∧
  (∀ k, k ∈ queued (step s e) → k ∈ queued s ∨ k = nextOrder s) ∧
  (∀ w, w ∈ submitted (step s e) → w ∈ submitted s ∨ cw_order w ∈ queued s) ∧
  (∀ d, d ∈ delivered (step s e) → d ∈ delivered s ∨ order d.1 ∈ queued s).
Proof.
  assert (∀ t o s0, order t ∈ queued s →
    queue s0 = queue s → nextOrder s0 = nextOrder s →
    submitted s0 = submitted s → delivered s0 = delivered s →
    nextOrder s ≤ nextOrder (complete t o s0) ∧
    (∀ k, k ∈ queued (complete t o s0) → k ∈ queued s ∨ k = nextOrder s) ∧
    (∀ w, w ∈ submitted (complete t o s0) →
          w ∈ submitted s ∨ cw_order w ∈ queued s) ∧
    (∀ d, d ∈ delivered (complete t o s0) →
          d ∈ delivered s ∨ order d.1 ∈ queued s)) as Hcomplete.
  { intros t o s0 Ht Hq Hno Hsm Hdl.
    rewrite complete_nextOrder, complete_submitted, complete_delivered.
    unfold queued. rewrite complete_queue, Hq, Hno, Hsm, Hdl.
    repeat split; [lia| |by left|].
    - intros k (u & -> & [_ Hu]%list_elem_of_filter)%list_elem_of_fmap.
      left. by apply list_elem_of_fmap_2.
    - intros d [Hd|Hd%list_elem_of_singleton]%elem_of_app; [by left|].
      right. by subst d. }
  destruct e as [p f local|p|k v|p v|p]; cbn.
  - repeat split; [lia| |by left|by left].
    unfold queued; cbn. rewrite fmap_app.
    intros k [Hk|Hk%list_elem_of_singleton]%elem_of_app; [by left|by right].
  - unfold attempt. destruct (nextSendable p s) as [t|] eqn:Hn;
      [|repeat split; [lia|by left..]].
    apply nextSendable_Some in Hn as (Ht & _ & _).
    apply (list_elem_of_fmap_2 order) in Ht as Hk.
    destruct (updateFn t (attemptInput t s)) as [v| |e];
      [|by apply Hcomplete..].
    repeat split.
    + destruct (applyLocally t); cbn; lia.
    + unfold queued. destruct (applyLocally t); cbn;
        (rewrite fmap_same_orders by (intros u; by case_decide)); by left.
    + destruct (applyLocally t); cbn;
        (intros w [Hw|Hw%list_elem_of_singleton]%elem_of_app; [by left|]);
        right; by subst w.
    + destruct (applyLocally t); cbn; by left.
  - unfold serverVerdict. destruct (sentEntry k s) as [t|] eqn:Hn;
      [|repeat split; [lia|by left..]].
    apply sentEntry_Some in Hn as (Ht & _ & _).
    apply (list_elem_of_fmap_2 order) in Ht as Hk.
    destruct v as [|a|e]; [by apply Hcomplete| |by apply Hcomplete].
    destruct (removeWriteOf_fields t s) as (Hq & Hno & Hsm & Hdl & _).
    cbn. rewrite Hno, Hsm, Hdl. unfold queued; cbn.
    rewrite Hq, fmap_same_orders by (intros u; by case_decide).
    repeat split; [lia|by left..].
  - repeat split; [lia|by left..].
  - unfold abortAllDescendants.
    rewrite completeAll_nextOrder, completeAll_submitted, completeAll_delivered.
    repeat split; [lia| |by left|].
    + intros k (u & -> & [Hu _]%completeAll_queue_elem)%list_elem_of_fmap.
      left. by apply list_elem_of_fmap_2.
    + intros d [Hd|(t & -> & [_ Ht]%list_elem_of_filter)%list_elem_of_fmap]%elem_of_app;
        [by left|].
      right. cbn. by apply (list_elem_of_fmap_2 order).
Qed.

(** Once a transaction has left the queue, no event brings it back, submits
    a write for it or delivers another result for it. *)
Lemma gone_step k s e :
  gone k s →
  gone k (step s e) ∧
  (∀ w, w ∈ submitted (step s e) → cw_order w = k → w ∈ submitted s) ∧
  (∀ d, d ∈ delivered (step s e) → order d.1 = k → d ∈ delivered s).
Proof.
  intros [Hlt Hnq]. destruct (step_footprint s e) as (Hno & Hq & Hw & Hd).
  repeat split.
  - lia.
  - intros [?|Hk]%Hq; [done|lia].
  - intros w [?|Hk]%Hw Hk'; [done|]. by rewrite Hk' in Hk.
  - intros d [?|Hk]%Hd Hk'; [done|]. by rewrite Hk' in Hk.
Qed.

Lemma gone_run k s es :
  gone k s →
  gone k (run s es) ∧
  (∀ w, w ∈ submitted (run s es) → cw_order w = k → w ∈ submitted s) ∧
  (∀ d, d ∈ delivered (run s es) → order d.1 = k → d ∈ delivered s).
Proof.
  revert s. induction es as [|e es IH]; intros s Hg; [done|].
  destruct (gone_step k s e Hg) as (Hg' & Hw & Hd).
  destruct (IH _ Hg') as (Hg'' & Hw' & Hd'). cbn. split; [done|]. split; auto.
Qed.

Lemma same_order_at_most_one l :
  NoDup (order <$> l) →
  (∀ t u, t ∈ l → u ∈ l → order t = order u) →
  length l ≤ 1.
Proof.
  destruct l as [|t [|u l]]; cbn; [lia..|].
  intros [Hnd _]%NoDup_cons Hsame. destruct Hnd.
  rewrite (Hsame t u); [apply list_elem_of_here|apply list_elem_of_here|].
  apply list_elem_of_further, list_elem_of_here.
Qed.

(** C1. In every state a session can reach, at most one queued entry of a
    path [p] is SENT, and while an entry of [p] is SENT every other queued
    entry of [p] is RUN. *)
Theorem at_most_one_sent_per_path server es p :
  length (filter (sent_on p) (queue (run (init server) es))) ≤ 1 ∧
  ∀ t u, t ∈ queue (run (init server) es) →
         u ∈ queue (run (init server) es) →
         sent_on p t → path u = p → order u ≠ order t →
         status u = RUN.
Proof.
  destruct (wf_run (init server) es (wf_init server))
    as [Hst Hone Hnd _ _ _].
  set (s := run (init server) es) in *. split.
  - apply same_order_at_most_one.
    + eapply sublist_NoDup; [exact Hnd|].
      unfold queued. apply fmap_sublist, sublist_filter.
    + intros t u [[Pt St] Ht]%list_elem_of_filter
                 [[Pu Su] Hu]%list_elem_of_filter.
      apply Hone; congruence.
  - intros t u Ht Hu [Pt St] Pu Hne.
    destruct (Hst u Hu) as [?|Su]; [done|].
    destruct Hne. apply Hone; congruence.
Qed.

(** C7. When the update function of the head sendable entry returns
    [undefined] on its first invocation, the attempt submits nothing and no
    conditional write of that transaction exists then or ever after; the
    entry, which was RUN, is delivered as COMPLETED and leaves the queue; no
    PendingWrite of it remains; and the delivered result is
    [committed = false] with the input snapshot of that invocation as
    [finalSnapshot]. *)
Theorem undefined_first_invocation_aborts server es p t :
  nextSendable p (run (init server) es) = Some t →
  retryCount t = 0 →
  updateFn t (overlayedValue p (run (init server) es)) = Undefined →
  let s := run (init server) es in
  let s' := step s (Attempt p) in
  let input := overlayedValue p s in
  status t = RUN ∧
  submitted s' = submitted s ∧
  (∀ es' w, w ∈ submitted (run s' es') → cw_order w ≠ order t) ∧
  delivered s' =
    (delivered s ++ [(with_status COMPLETED (with_input input t),
                      Aborted UpdateReturnedUndefined input)]) ∧
  result_of (Aborted UpdateReturnedUndefined input) =
    inr {| committed := false; finalSnapshot := input |} ∧
  (order t ∉ queued s') ∧
  (∀ id w, currentWriteId t = Some id → w ∈ registry s' → writeId w ≠ id).
Proof.
  intros Hn Hfirst Hupd s s' input.
  pose proof (wf_run (init server) es (wf_init server)) as Hwf. fold s in Hwf.
  fold s in Hn, Hupd. fold input in Hupd.
  destruct (nextSendable_Some p s t Hn) as (Ht & [Hp Hr] & _).
  assert (attemptInput t s = input) as Hin.
  { unfold attemptInput. rewrite decide_True by done. by rewrite Hp. }
  assert (s' = complete (with_input input t)
                 (Aborted UpdateReturnedUndefined input) s) as Hs'.
  { unfold s'. cbn. unfold attempt. by rewrite Hn, Hin, Hupd. }
  assert (order t ∉ queued s') as Hnq.
  { rewrite Hs'. apply (complete_not_queued (with_input input t)). }
  split; [done|]. rewrite Hs', complete_submitted, complete_delivered.
  split; [done|]. split; [|split; [done|split; [done|split; [by rewrite <- Hs'|]]]].
  - intros es' w Hw Hk. rewrite <- Hs' in Hw.
    assert (gone (order t) s') as Hg.
    { split; [|done]. rewrite Hs', complete_nextOrder.
      by apply (wf_bounded s Hwf). }
    apply (gone_run _ _ es' Hg) in Hw; [|done].
    rewrite Hs', complete_submitted in Hw.
    by apply (wf_fresh s Hwf t Ht Hr Hfirst w Hw).
  - intros id w Hid. unfold complete, removeWriteOf. cbn. rewrite Hid. cbn.
    by intros [? _]%list_elem_of_filter.
Qed.

(** C8. When an overwrite is notified on a path overlapping that of a SENT
    entry, the entry is delivered at once as aborted with the write-canceled
    condition and leaves the queue; whatever happens afterwards, the server
    verdict included, every result delivered for that transaction is that
    abort and none is a commit. *)
Theorem overwrite_aborts_sent_transaction server es q t :
  t ∈ queue (run (init server) es) →
  status t = SENT →
  overlaps q (path t) →
  let s := run (init server) es in
  let s' := step s (NotifyOverwrite q) in
  (with_status COMPLETED t,
   Aborted WriteCanceled (overlayedValue (path t) s)) ∈ delivered s' ∧
  (order t ∉ queued s') ∧
  ∀ es' d, d ∈ delivered (run s' es') → order d.1 = order t →
           (∃ v, d.2 = Aborted WriteCanceled v) ∧ (∀ v, d.2 ≠ Committed v).
Proof.
  intros Ht Hs Hov s s'.
  pose proof (wf_run (init server) es (wf_init server)) as Hwf. fold s in Hwf.
  fold s in Ht.
  set (hits := filter (λ u, overlaps q (path u)) (queue s)).
  set (g := λ u, Aborted WriteCanceled (overlayedValue (path u) s)).
  assert (s' = completeAll g hits s) as Hs' by done.
  assert (t ∈ hits) as Hhit by (by apply list_elem_of_filter).
  assert (order t ∉ queued s') as Hnq.
  { rewrite Hs'.
    intros (u & Ho & [_ Hu]%completeAll_queue_elem)%list_elem_of_fmap.
    apply Hu. rewrite <- Ho. by apply (list_elem_of_fmap_2 order). }
  split; [|split; [done|]].
  - rewrite Hs', completeAll_delivered. apply elem_of_app. right.
    by apply (list_elem_of_fmap_2 (λ u, (with_status COMPLETED u, g u))).
  - intros es' d Hd Hk.
    assert (gone (order t) s') as Hg.
    { split; [|done]. rewrite Hs', completeAll_nextOrder.
      by apply (wf_bounded s Hwf). }
    apply (gone_run _ _ es' Hg) in Hd; [|done].
    rewrite Hs', completeAll_delivered in Hd.
    apply elem_of_app in Hd as [Hd|(u & -> & Hu)%list_elem_of_fmap].
    + destruct (wf_dequeued s Hwf d Hd). rewrite Hk.
      by apply (list_elem_of_fmap_2 order).
    + cbn. split; [by eexists|done].
Qed.

End EngineFacts.

(** ** The same facts on sample sessions *)

Lemma at_most_one_sent_per_path_witness :
  status second_increment = RUN.
Proof.
  apply (proj2 (at_most_one_sent_per_path server5 two_increments ["counter"])
           first_increment second_increment).
  - vm_compute. apply list_elem_of_here.
  - vm_compute. apply list_elem_of_further, list_elem_of_here.
  - split; reflexivity.
  - reflexivity.
  - cbn. lia.
Defined.

Lemma undefined_first_invocation_aborts_witness :
  let s := run (init server5) [RunTransaction ["counter"] decline true] in
  let s' := step s (Attempt ["counter"]) in
  let input := overlayedValue ["counter"] s in
  status declined = RUN ∧
  submitted s' = submitted s ∧
  (∀ es' w, w ∈ submitted (run s' es') → cw_order w ≠ order declined) ∧
  delivered s' =
    (delivered s ++ [(with_status COMPLETED (with_input input declined),
                      Aborted UpdateReturnedUndefined input)]) ∧
  result_of (Aborted UpdateReturnedUndefined input) =
    inr {| committed := false; finalSnapshot := input |} ∧
  (order declined ∉ queued s') ∧
  (∀ id w, currentWriteId declined = Some id → w ∈ registry s' →
           writeId w ≠ id).
Proof.
  apply (undefined_first_invocation_aborts server5
           [RunTransaction ["counter"] decline true] ["counter"] declined).
  - reflexivity.
  - reflexivity.
  - reflexivity.
Defined.

Lemma overwrite_aborts_sent_transaction_witness :
  let s := run (init server5) two_increments in
  let s' := step s (NotifyOverwrite []) in
  (with_status COMPLETED first_increment,
   Aborted WriteCanceled (overlayedValue (path first_increment) s))
    ∈ delivered s' ∧
  (order first_increment ∉ queued s') ∧
  ∀ es' d, d ∈ delivered (run s' es') → order d.1 = order first_increment →
           (∃ v, d.2 = Aborted WriteCanceled v) ∧ (∀ v, d.2 ≠ Committed v).
Proof.
  apply (overwrite_aborts_sent_transaction server5 two_increments []
           first_increment).
  - vm_compute. apply list_elem_of_here.
  - reflexivity.
  - left. apply prefix_nil.
Defined.

(** ** The scenarios of the design document, run on the model *)

(** Scenario A: one increment of [/counter = 5], accepted by the server. *)
Example scenario_A :
  let s := run (init server5)
             [RunTransaction ["counter"] increment true;
              Attempt ["counter"]; ServerVerdict 0 Accept] in
  submitted s =
    [{| cw_order := 0; cw_path := ["counter"]; cw_value := VNum 6;
        cw_precondition := VNum 5 |}] ∧
  (snd <$> delivered s) = [Committed (VNum 6)] ∧
  queue s = [] ∧ registry s = [] ∧
  overlayedValue ["counter"] s = VNum 6.
Proof. repeat split; reflexivity. Qed.

(** Scenario B: two increments of [/counter = 5]; the second is attempted
    only after the first has been accepted; 6 then 7, nothing is lost. *)
Example scenario_B :
  let s := run (init server5)
             (two_increments ++
              [ServerVerdict 0 Accept; Attempt ["counter"];
               ServerVerdict 1 Accept]) in
  ((λ w, (cw_value w, cw_precondition w)) <$> submitted s) =
    [(VNum 6, VNum 5); (VNum 7, VNum 6)] ∧
  (snd <$> delivered s) = [Committed (VNum 6); Committed (VNum 7)] ∧
  overlayedValue ["counter"] s = VNum 7.
Proof. repeat split; reflexivity. Qed.

(** A conflict: the retry runs on the authoritative value of the rejection. *)
Example scenario_conflict :
  let s := run (init server5)
             [RunTransaction ["counter"] increment true;
              Attempt ["counter"]; ServerVerdict 0 (RejectConflict (VNum 9));
              Attempt ["counter"]; ServerVerdict 0 Accept] in
  ((λ w, (cw_value w, cw_precondition w)) <$> submitted s) =
    [(VNum 6, VNum 5); (VNum 10, VNum 9)] ∧
  (snd <$> delivered s) = [Committed (VNum 10)].
Proof. repeat split; reflexivity. Qed.

(** Scenario C: the update function declines; no write is submitted. *)
Example scenario_C :
  let s := run (init server5)
             [RunTransaction ["counter"] decline true; Attempt ["counter"]] in
  submitted s = [] ∧
  (snd <$> delivered s) = [Aborted UpdateReturnedUndefined (VNum 5)].
Proof. repeat split; reflexivity. Qed.

(** Scenario D: an overwrite lands while the transaction is SENT. *)
Example scenario_D :
  let s := run (init server5)
             [RunTransaction ["counter"] increment true;
              Attempt ["counter"]; NotifyOverwrite ["counter"];
              ServerVerdict 0 Accept] in
  (snd <$> delivered s) = [Aborted WriteCanceled (VNum 6)] ∧
  queue s = [] ∧ registry s = [].
Proof. repeat split; reflexivity. Qed.

(* ================================================================== *)
(** * More properties of Transaction.ts *)
(* ================================================================== *)

Section TransactionMoreFacts.

Import TransactionMore.

Context {Repo Node Update Json : Type}.
Variable validateWritablePath : string → Path → option Thrown.
Variable onValue : ReferenceImpl (Repo := Repo) → option Thrown.
Variable repoStartTransaction :
  Repo → Path → Update → bool → list (Completion (Node := Node)) * option Thrown.

Implicit Types (ref : DatabaseReference (Repo := Repo)) (u : Update)
  (o : option TransactionOptions).

Local Abbreviation runTx :=
  (runTransaction validateWritablePath onValue repoStartTransaction).
Local Abbreviation fnName := "Reference.transaction".

(** The four ways a call can go, as one case distinction. *)
Lemma runTransaction_cases ref u o :
  let r := getModularInstance ref in
  let b := default true (o ≫= Transaction.applyLocally) in
  (∃ t, validateWritablePath fnName (_path r) = Some t ∧
        runTx ref u o = ([validateWritablePath_call fnName (_path r)], inl t)) ∨
  (∃ k, validateWritablePath fnName (_path r) = None ∧
        reserved_key r = Some k ∧
        runTx ref u o =
          ([validateWritablePath_call fnName (_path r)],
           inl (ThrownString
                  ("Reference.transaction failed: " +:+ k +:+
                   " is a read-only object.")))) ∨
  (∃ t, validateWritablePath fnName (_path r) = None ∧
        reserved_key r = None ∧ onValue r = Some t ∧
        runTx ref u o =
          ([validateWritablePath_call fnName (_path r);
            new_Deferred; onValue_call r], inl t)) ∨
  (validateWritablePath fnName (_path r) = None ∧
   reserved_key r = None ∧ onValue r = None ∧
   runTx ref u o =
     ([validateWritablePath_call fnName (_path r);
       new_Deferred;
       onValue_call r;
       repoStartTransaction_call (_repo r) (_path r) u (promiseComplete r)
         (Unwatch r) b],
      match (repoStartTransaction (_repo r) (_path r) u b).2 with
      | Some t => inl t
      | None =>
          inr (settle_all Pending
                 ((repoStartTransaction (_repo r) (_path r) u b).1
                    ≫= λ c, promiseComplete r c.1.1 c.1.2 c.2))
      end)).
Proof.
  intros r b. unfold r, b.
  destruct (validateWritablePath fnName (_path (getModularInstance ref)))
    as [t|] eqn:Hv.
  { left. exists t. split; [done|]. by apply runTransaction_refused. }
  destruct (reserved_key (getModularInstance ref)) as [k|] eqn:Hk.
  { right; left. exists k. split; [done|]. split; [done|].
    by apply runTransaction_reserved. }
  destruct (onValue (getModularInstance ref)) as [t|] eqn:Hw.
  { right; right; left. exists t. repeat (split; [done|]).
    by apply runTransaction_unwatched. }
  right; right; right. repeat (split; [done|]).
  by apply runTransaction_started.
Qed.

(** X1. On a reference that passes both checks, and when the watch can be
    added, [runTransaction] makes its calls in this order: the validation,
    the Deferred, the value watch on the unwrapped reference, and only then
    [repoStartTransaction], which gets the repo and path of that reference,
    the caller's update function unchanged, and the unsubscribe handle of
    that very watch. What [repoStartTransaction] throws, [runTransaction]
    throws; otherwise the promise is returned in the state the completions
    made during [repoStartTransaction] left it in: pending if there were
    none, settled by the first of them otherwise. *)
Theorem runTransaction_call_sequence ref u o :
  validateWritablePath fnName (_path (getModularInstance ref)) = None →
  (∀ k, key (getModularInstance ref) = Some k → ¬ is_meta_key k) →
  onValue (getModularInstance ref) = None →
  ∃ cb b,
    trace (runTx ref u o) =
      [validateWritablePath_call fnName (_path (getModularInstance ref));
       new_Deferred;
       onValue_call (getModularInstance ref);
       repoStartTransaction_call
         (_repo (getModularInstance ref)) (_path (getModularInstance ref))
         u cb (Unwatch (getModularInstance ref)) b]
    ∧ outcome (runTx ref u o) =
      match (repoStartTransaction (_repo (getModularInstance ref))
               (_path (getModularInstance ref)) u b).2 with
      | Some t => inl t
      | None =>
          inr (settle_all Pending
                 ((repoStartTransaction (_repo (getModularInstance ref))
                     (_path (getModularInstance ref)) u b).1
                    ≫= λ c, cb c.1.1 c.1.2 c.2))
      end.
Proof.
  intros Hv Hk Hw. apply reserved_key_None in Hk.
  rewrite (runTransaction_started validateWritablePath onValue
             repoStartTransaction ref u o Hv Hk Hw).
  by eexists _, _.
Qed.

(** X2. Whatever the reference, the first thing [runTransaction] does is to
    validate the path of the unwrapped reference under the name
    ['Reference.transaction'], and it validates exactly once. *)
Theorem validation_comes_first_and_once ref u o :
  head (trace (runTx ref u o)) =
    Some (validateWritablePath_call fnName (_path (getModularInstance ref)))
  ∧ count is_validate (trace (runTx ref u o)) = 1.
Proof.
  destruct (runTransaction_cases ref u o)
    as [(t & _ & ->)|[(k & _ & _ & ->)|[(t & _ & _ & _ & ->)|(_ & _ & _ & ->)]]];
    by split.
Qed.

(** X3. How often [runTransaction] calls its collaborators. A call refused
    by one of the two checks creates no Deferred, asks for no watch and
    starts nothing. A call that passes them creates exactly one Deferred and
    asks for exactly one watch; it calls [repoStartTransaction] exactly once
    if [onValue] returns and not at all if [onValue] throws. When
    [repoStartTransaction] throws, [runTransaction] throws the same value,
    the watch having been added. *)
Theorem deferred_watch_and_start_counts ref u o :
  let r := getModularInstance ref in
  let passed :=
    match validateWritablePath fnName (_path r), reserved_key r with
    | None, None => true
    | _, _ => false
    end in
  let watched :=
    match onValue r with
    | None => passed
    | Some _ => false
    end in
  count is_new_Deferred (trace (runTx ref u o)) = (if passed then 1 else 0) ∧
  count is_onValue (trace (runTx ref u o)) = (if passed then 1 else 0) ∧
  count is_start (trace (runTx ref u o)) = (if watched then 1 else 0) ∧
  (∀ t, watched = true →
        (repoStartTransaction (_repo r) (_path r) u
           (default true (o ≫= Transaction.applyLocally))).2 = Some t →
        outcome (runTx ref u o) = inl t ∧
        count is_onValue (trace (runTx ref u o)) = 1).
Proof.
  intros r passed watched. unfold watched, passed, r.
  destruct (runTransaction_cases ref u o)
    as [(t & Hv & ->)|[(k & Hv & Hk & ->)
       |[(t & Hv & Hk & Hw & ->)|(Hv & Hk & Hw & ->)]]];
    rewrite Hv, ?Hk, ?Hw; unfold trace, outcome; cbn [fst snd].
  - split; [done|]. split; [done|].
    destruct (onValue (getModularInstance ref)); by split.
  - split; [done|]. split; [done|].
    destruct (onValue (getModularInstance ref)); by split.
  - split; [done|]. split; [done|]. by split.
  - split; [done|]. split; [done|]. split; [done|].
    intros t _ Ht. by rewrite Ht.
Qed.

(** X4. At the root reference (empty path) the key is [null] and the
    meta-key check cannot fire: when [validateWritablePath] refuses the
    empty path the call throws what it threw and nothing else was called;
    when it accepts, the call goes on to create its Deferred and to ask for
    the watch. *)
Theorem root_reference_skips_key_check ref u o :
  _path (getModularInstance ref) = [] →
  match validateWritablePath fnName [] with
  | Some t => runTx ref u o = ([validateWritablePath_call fnName []], inl t)
  | None =>
      new_Deferred ∈ trace (runTx ref u o) ∧
      onValue_call (getModularInstance ref) ∈ trace (runTx ref u o)
  end.
Proof.
  intros Hroot.
  destruct (runTransaction_cases ref u o)
    as [(t & Hv & ->)|[(k & Hv & Hk & ->)
       |[(t & Hv & Hk & Hw & ->)|(Hv & Hk & Hw & ->)]]];
    rewrite Hroot in *; rewrite ?Hv.
  - done.
  - apply reserved_key_Some in Hk as [Hkey _].
    unfold key in Hkey. by rewrite Hroot in Hkey.
  - unfold trace; cbn [fst]. split.
    + apply list_elem_of_further, list_elem_of_here.
    + do 2 apply list_elem_of_further. apply list_elem_of_here.
  - unfold trace; cbn [fst]. split.
    + apply list_elem_of_further, list_elem_of_here.
    + do 2 apply list_elem_of_further. apply list_elem_of_here.
Qed.

Lemma settle_all_settled (s : PromiseState (Repo := Repo) (Node := Node)) cs :
  s ≠ Pending → settle_all s cs = s.
Proof.
  revert s. induction cs as [|c cs IH]; intros s Hs; [done|].
  cbn. destruct s; try done; by apply IH.
Qed.

(** X5. When the engine completes a started transaction without error, the
    pending promise is fulfilled with a result whose [committed] is the flag
    the engine passed, [true] as well as [false], and whose snapshot holds
    the node passed (possibly [null]) under the priority index, at the repo
    and path the transaction was started on. *)
Theorem completion_resolves_with_flag_and_node ref u o repo p u' cb unw b
    (c : bool) (n : option Node) :
  repoStartTransaction_call repo p u' cb unw b ∈ trace (runTx ref u o) →
  settle_all Pending (cb None c n) =
    Fulfilled {| Transaction.committed := c;
                 snapshot := {| _node := n;
                                ref := {| _repo := repo; _path := p |};
                                _index := PRIORITY_INDEX |} |}.
Proof.
  intros Hc. by apply (started_callback validateWritablePath onValue
                 repoStartTransaction) in Hc as ->.
Qed.

(** X6. The first completion decides: if the engine calls the completion
    callback of a started transaction several times, the promise ends in the
    state the first call put it in, and that state is not pending. *)
Theorem first_completion_wins ref u o repo p u' cb unw b
    (first : Completion) (later : list Completion) :
  repoStartTransaction_call repo p u' cb unw b ∈ trace (runTx ref u o) →
  settle_all Pending ((first :: later) ≫= λ c, cb c.1.1 c.1.2 c.2) =
    settle_all Pending (cb first.1.1 first.1.2 first.2)
  ∧ settle_all Pending (cb first.1.1 first.1.2 first.2) ≠ Pending.
Proof.
  intros Hc.
  apply (started_callback validateWritablePath onValue repoStartTransaction)
    in Hc as ->.
  assert (settle_all Pending
            (promiseComplete {| _repo := repo; _path := p |}
               first.1.1 first.1.2 first.2) ≠ Pending) as Hs
    by (destruct first as [[[e|] c] n]; done).
  split; [|done]. cbn [mbind list_bind]. unfold settle_all in *.
  rewrite foldl_app. by apply settle_all_settled.
Qed.

(** X7. [toJSON] gives an object with exactly the properties [committed]
    and [snapshot]: the flag itself and the JSON of the snapshot. Two
    results have the same JSON form exactly when they agree on the flag and
    on the JSON of their snapshots. *)
Theorem toJSON_properties (snapshot_toJSON : DataSnapshot → Json)
    (r1 r2 : Transaction.TransactionResult (Repo := Repo) (Node := Node)) :
  (toJSON snapshot_toJSON r1).*1 = ["committed"; "snapshot"] ∧
  property "committed" (toJSON snapshot_toJSON r1) = Some (JsonBool (Transaction.committed r1)) ∧
  property "snapshot" (toJSON snapshot_toJSON r1) =
    Some (JsonOf (snapshot_toJSON (snapshot r1))) ∧
  (∀ k, k ≠ "committed" → k ≠ "snapshot" →
        property k (toJSON snapshot_toJSON r1) = None) ∧
  (toJSON snapshot_toJSON r1 = toJSON snapshot_toJSON r2 ↔
     Transaction.committed r1 = Transaction.committed r2 ∧
     snapshot_toJSON (snapshot r1) = snapshot_toJSON (snapshot r2)).
Proof.
  split; [done|]. split; [done|]. split; [done|]. split.
  - intros k H1 H2. cbn. by rewrite !decide_False by done.
  - split.
    + intros [= H1 H2]. by split.
    + intros [H1 H2]. unfold toJSON. by rewrite H1, H2.
Qed.

End TransactionMoreFacts.

(** ** The same facts on sample references *)

Lemma runTransaction_call_sequence_witness :
  ∃ cb b,
    trace (run_sample (Compat {| _repo := db; _path := ["counter"] |})
             decline None) =
      [validateWritablePath_call "Reference.transaction" ["counter"];
       new_Deferred;
       onValue_call {| _repo := db; _path := ["counter"] |};
       repoStartTransaction_call db ["counter"] decline cb
         (Unwatch {| _repo := db; _path := ["counter"] |}) b]
    ∧ outcome (run_sample (Compat {| _repo := db; _path := ["counter"] |})
                 decline None) =
      match (repoStartTransaction_once db ["counter"] decline b).2 with
      | Some t => inl t
      | None =>
          inr (settle_all Pending
                 ((repoStartTransaction_once db ["counter"] decline b).1
                    ≫= λ c, cb c.1.1 c.1.2 c.2))
      end.
Proof.
  apply (runTransaction_call_sequence (Node := Engine.Value)
           validateWritablePath_info onValue_returns repoStartTransaction_once
           (Compat {| _repo := db; _path := ["counter"] |}) decline None).
  - reflexivity.
  - intros k [= <-] [H|H]; discriminate H.
  - reflexivity.
Defined.

Lemma deferred_watch_and_start_counts_witness :
  outcome (run_sample (at_path ["counter"]) boom None) =
    inl (ThrownError {| message := "boom" |}) ∧
  TransactionMore.count TransactionMore.is_onValue
    (trace (run_sample (at_path ["counter"]) boom None)) = 1.
Proof.
  apply (proj2 (proj2 (proj2
           (deferred_watch_and_start_counts (Node := Engine.Value)
              validateWritablePath_info onValue_returns
              repoStartTransaction_once
              (at_path ["counter"]) boom None)))
           (ThrownError {| message := "boom" |})).
  - reflexivity.
  - reflexivity.
Defined.

Lemma root_reference_skips_key_check_witness :
  new_Deferred ∈ trace (run_sample (at_path []) increment None) ∧
  onValue_call (getModularInstance (at_path []))
    ∈ trace (run_sample (at_path []) increment None).
Proof.
  apply (root_reference_skips_key_check (Node := Engine.Value)
           validateWritablePath_info onValue_returns repoStartTransaction_once
           (at_path []) increment None).
  reflexivity.
Defined.

(** With the sample engine entry: an update function that raises makes the
    call throw after all four calls; one that returns [undefined] gives back
    a promise that is already fulfilled, not committed. *)
Example run_sample_boom :
  run_sample (at_path ["counter"]) boom None =
    ([validateWritablePath_call "Reference.transaction" ["counter"];
      new_Deferred;
      onValue_call {| _repo := db; _path := ["counter"] |};
      repoStartTransaction_call db ["counter"] boom
        (promiseComplete {| _repo := db; _path := ["counter"] |})
        (Unwatch {| _repo := db; _path := ["counter"] |}) true],
     inl (ThrownError {| message := "boom" |})).
Proof. reflexivity. Qed.

Example run_sample_decline :
  outcome (run_sample (at_path ["counter"]) decline None) =
    inr (Fulfilled
           {| Transaction.committed := false;
              snapshot := {| _node := Some Engine.VNull;
                             ref := {| _repo := db; _path := ["counter"] |};
                             _index := PRIORITY_INDEX |} |}).
Proof. reflexivity. Qed.

Lemma completion_resolves_with_flag_and_node_witness :
  settle_all Pending
    (promiseComplete (Node := Engine.Value)
       {| _repo := db; _path := ["counter"] |} None true (Some (Engine.VNum 6))) =
    Fulfilled {| Transaction.committed := true;
                 snapshot := {| _node := Some (Engine.VNum 6);
                                ref := {| _repo := db; _path := ["counter"] |};
                                _index := PRIORITY_INDEX |} |}.
Proof.
  apply (completion_resolves_with_flag_and_node (Node := Engine.Value)
           validateWritablePath_info onValue_returns repoStartTransaction_once (at_path ["counter"]) increment
           (Some {| Transaction.applyLocally := Some true |})
           db ["counter"] increment _
           (Unwatch {| _repo := db; _path := ["counter"] |}) true).
  vm_compute. do 3 apply list_elem_of_further. apply list_elem_of_here.
Defined.

Lemma first_completion_wins_witness :
  let cb := promiseComplete (Node := Engine.Value)
              {| _repo := db; _path := ["counter"] |} in
  let first : Completion := (Some {| message := "disconnect" |}, false, None) in
  let later : list Completion := [(None, true, Some (Engine.VNum 6))] in
  settle_all Pending ((first :: later) ≫= λ c, cb c.1.1 c.1.2 c.2) =
    settle_all Pending (cb first.1.1 first.1.2 first.2)
  ∧ settle_all Pending (cb first.1.1 first.1.2 first.2) ≠ Pending.
Proof.
  apply (first_completion_wins (Node := Engine.Value)
           validateWritablePath_info onValue_returns repoStartTransaction_once (at_path ["counter"]) increment
           (Some {| Transaction.applyLocally := Some true |})
           db ["counter"] increment _
           (Unwatch {| _repo := db; _path := ["counter"] |}) true).
  vm_compute. do 3 apply list_elem_of_further. apply list_elem_of_here.
Defined.

(* ================================================================== *)
(** * Properties of the App Check API *)
(* ================================================================== *)

Section AppCheckFacts.

Import AppCheck.

Context {PlatformLogger Custom Refresher Rest Fn Store : Type}.

Variable getState :
  Store → FirebaseApp →
  AppCheckState (PlatformLogger := PlatformLogger) (Custom := Custom)
    (Refresher := Refresher) (Rest := Rest).
Variable setState :
  FirebaseApp →
  AppCheckState (PlatformLogger := PlatformLogger) (Custom := Custom)
    (Refresher := Refresher) (Rest := Rest) →
  Store → Store.

(** What a store is expected to do: a state that was set is the state one
    gets, and setting the state of one app leaves those of the others. *)
Hypothesis getState_setState :
  ∀ s app st, getState (setState app st s) app = st.
Hypothesis getState_setState_other :
  ∀ s app app' st, app' ≠ app → getState (setState app st s) app' = getState s app'.

Implicit Types (s : Store) (app : FirebaseApp) (p : AppCheckProvider (Custom := Custom))
  (plp : PlatformLogger) (flag : option bool).

Local Abbreviation activate := (activate (Fn := Fn) getState setState).
Local Abbreviation setTokenAutoRefreshEnabled :=
  (setTokenAutoRefreshEnabled (Fn := Fn) getState setState).

(** The state [activate] writes, before a reCAPTCHA provider is wrapped. *)
Local Abbreviation activatedState s app p flag :=
  {| activated := true;
     provider := Some (Public p);
     isTokenAutoRefreshEnabled :=
       Some (match flag with
             | None => automaticDataCollectionEnabled app
             | Some b => b
             end);
     tokenRefresher := tokenRefresher (getState s app);
     rest := rest (getState s app) |}.

Lemma activate_again s app p plp flag :
  activated (getState s app) = true →
  activate app p plp flag s = (s, [], inl (ALREADY_ACTIVATED (name app))).
Proof.
  intros Ha. unfold AppCheck.activate, mbind, M_bind, get_state. cbn.
  by rewrite Ha.
Qed.

Lemma activate_custom s app c plp flag :
  activated (getState s app) = false →
  activate app (CustomProvider c) plp flag s =
    (setState app (activatedState s app (CustomProvider c) flag) s, [], inr ()).
Proof.
  intros Ha. unfold AppCheck.activate, mbind, M_bind, get_state. cbn.
  by rewrite Ha.
Qed.

Lemma activate_recaptcha s app k plp flag :
  activated (getState s app) = false →
  activate app (ReCAPTCHAV3Provider k) plp flag s =
    (setState app
       {| activated := true;
          provider := Some (ReCAPTCHAV3ProviderInternal app k plp);
          isTokenAutoRefreshEnabled :=
            Some (match flag with
                  | None => automaticDataCollectionEnabled app
                  | Some b => b
                  end);
          tokenRefresher := tokenRefresher (getState s app);
          rest := rest (getState s app) |}
       (setState app (activatedState s app (ReCAPTCHAV3Provider k) flag) s),
     [initializeRecaptcha app k], inr ()).
Proof.
  intros Ha. unfold AppCheck.activate, mbind, M_bind, get_state. cbn.
  by rewrite Ha.
Qed.

(** The state of [app] after a successful [activate]. *)
Lemma activate_state s app p plp flag :
  activated (getState s app) = false →
  result (activate app p plp flag s) = inr () ∧
  getState (store_after (activate app p plp flag s)) app =
    {| activated := true;
       provider :=
         Some (match p with
               | ReCAPTCHAV3Provider k => ReCAPTCHAV3ProviderInternal app k plp
               | CustomProvider c => Public (CustomProvider c)
               end);
       isTokenAutoRefreshEnabled :=
         Some (match flag with
               | None => automaticDataCollectionEnabled app
               | Some b => b
               end);
       tokenRefresher := tokenRefresher (getState s app);
       rest := rest (getState s app) |}.
Proof.
  intros Ha. destruct p as [c|k].
  - rewrite activate_custom by done. split; [done|].
    unfold store_after; cbn. by rewrite getState_setState.
  - rewrite activate_recaptcha by done. split; [done|].
    unfold store_after; cbn. by rewrite getState_setState.
Qed.

(** X8. An app can be activated once. Where the app is not activated,
    [activate] succeeds; any further [activate] of that app, whatever its
    arguments, throws [ALREADY_ACTIVATED] with the app's name, changes no
    state and calls nothing. *)
Theorem activate_succeeds_only_once s app p plp flag p' plp' flag' :
  activated (getState s app) = false →
  result (activate app p plp flag s) = inr () ∧
  activate app p' plp' flag' (store_after (activate app p plp flag s)) =
    (store_after (activate app p plp flag s), [],
     inl (ALREADY_ACTIVATED (name app))).
Proof.
  intros Ha. destruct (activate_state s app p plp flag Ha) as [Hr Hs].
  split; [done|]. apply activate_again. by rewrite Hs.
Qed.

(** X9. After a successful [activate] the auto-refresh flag of the app is
    the argument when one was given, [false] included, and the app's
    [automaticDataCollectionEnabled] when it was left undefined. *)
Theorem activate_auto_refresh_default s app p plp flag :
  activated (getState s app) = false →
  isTokenAutoRefreshEnabled
    (getState (store_after (activate app p plp flag s)) app) =
    Some (match flag with
          | None => automaticDataCollectionEnabled app
          | Some b => b
          end).
Proof.
  intros Ha. destruct (activate_state s app p plp flag Ha) as [_ ->]. done.
Qed.

(** X10. A reCAPTCHA provider is stored wrapped in the internal provider
    built from the app, the provider's site key and the platform logger, and
    reCAPTCHA is initialised once with that site key; any other provider is
    stored as passed and nothing is initialised. *)
Theorem activate_wraps_recaptcha_provider s app p plp flag :
  activated (getState s app) = false →
  provider (getState (store_after (activate app p plp flag s)) app) =
    Some (match p with
          | ReCAPTCHAV3Provider k => ReCAPTCHAV3ProviderInternal app k plp
          | CustomProvider c => Public (CustomProvider c)
          end)
  ∧ effects (activate app p plp flag s) =
    match p with
    | ReCAPTCHAV3Provider k => [initializeRecaptcha app k]
    | CustomProvider _ => []
    end.
Proof.
  intros Ha. destruct (activate_state s app p plp flag Ha) as [_ ->].
  split; [done|]. destruct p as [c|k].
  - by rewrite activate_custom.
  - by rewrite activate_recaptcha.
Qed.


Lemma setTokenAutoRefreshEnabled_eq s app (b : bool) :
  setTokenAutoRefreshEnabled app b s =
    (setState app
       {| activated := activated (getState s app);
          provider := provider (getState s app);
          isTokenAutoRefreshEnabled := Some b;
          tokenRefresher := tokenRefresher (getState s app);
          rest := rest (getState s app) |} s,
     match tokenRefresher (getState s app) with
     | Some r => [if b then tokenRefresher_start r else tokenRefresher_stop r]
     | None => []
     end,
     inr ()).
Proof.
  unfold AppCheck.setTokenAutoRefreshEnabled, mbind, M_bind, get_state. cbn.
  destruct (tokenRefresher (getState s app)) as [r|]; [destruct b|]; done.
Qed.

(** X12. [setTokenAutoRefreshEnabled] never throws. It sets the flag of the
    app and nothing else in its state (an app that is not activated stays
    so). If the state has a token refresher it is started when the flag is
    [true] and stopped when it is [false], exactly one call; without a
    refresher nothing is called. *)
Theorem setTokenAutoRefreshEnabled_sets_flag_and_drives_refresher
    s app (b : bool) :
  result (setTokenAutoRefreshEnabled app b s) = inr () ∧
  getState (store_after (setTokenAutoRefreshEnabled app b s)) app =
    {| activated := activated (getState s app);
       provider := provider (getState s app);
       isTokenAutoRefreshEnabled := Some b;
       tokenRefresher := tokenRefresher (getState s app);
       rest := rest (getState s app) |} ∧
  effects (setTokenAutoRefreshEnabled app b s) =
    match tokenRefresher (getState s app) with
    | Some r => [if b then tokenRefresher_start r else tokenRefresher_stop r]
    | None => []
    end.
Proof.
  rewrite setTokenAutoRefreshEnabled_eq. unfold result, store_after, effects.
  cbn. by rewrite getState_setState.
Qed.

(** X13. A later [setTokenAutoRefreshEnabled] overrides the flag chosen at
    activation and leaves the activation and the stored provider alone. *)
Theorem setTokenAutoRefreshEnabled_after_activate s app p plp flag (b : bool) :
  activated (getState s app) = false →
  let s1 := store_after (activate app p plp flag s) in
  let s2 := store_after (setTokenAutoRefreshEnabled app b s1) in
  isTokenAutoRefreshEnabled (getState s2 app) = Some b ∧
  activated (getState s2 app) = true ∧
  provider (getState s2 app) = provider (getState s1 app).
Proof.
  intros Ha s1 s2. unfold s2.
  destruct (setTokenAutoRefreshEnabled_sets_flag_and_drives_refresher s1 app b)
    as (_ & -> & _).
  cbn. unfold s1.
  destruct (activate_state s app p plp flag Ha) as [_ ->]. done.
Qed.

(** X14. [getToken] turns the error of the internal result into an
    exception: it throws exactly when the internal result carries an error,
    and then throws that error; otherwise it returns a result that holds the
    token and no error. *)
Theorem getToken_throws_the_error (r : AppCheckTokenResult) :
  match getToken r with
  | inl f => ∃ e, error r = Some e ∧ f = TokenError e
  | inr t => error r = None ∧ token t = token r ∧ error t = None
  end.
Proof.
  unfold getToken. destruct (error r) as [e|] eqn:He; [by exists e|done].
Qed.

(** X15. [onTokenChanged] registers exactly one listener, of type
    [EXTERNAL], and the unsubscribe function it returns removes the listener
    with the very next function that was registered. The completion
    callback, given as argument or as method of the observer, plays no
    role. *)
Theorem onTokenChanged_unsubscribe_matches app plp
    (arg : NextOrObserver (Fn := Fn)) (onError onCompletion : option Fn) :
  ∃ nextFn errorFn,
    onTokenChanged (PlatformLogger := PlatformLogger) (Refresher := Refresher)
      app plp arg onError onCompletion =
      ([addTokenListener app plp EXTERNAL nextFn errorFn],
       [removeTokenListener app nextFn]) ∧
    ∀ onCompletion' complete',
      onTokenChanged (PlatformLogger := PlatformLogger) (Refresher := Refresher)
        app plp
        match arg with
        | Observer o =>
            Observer {| self := self o; next := next o;
                        observer_error := observer_error o;
                        complete := complete' |}
        | NextFn f => NextFn f
        end onError onCompletion' =
      ([addTokenListener app plp EXTERNAL nextFn errorFn],
       [removeTokenListener app nextFn]).
Proof.
  eexists _, _. split; [reflexivity|]. intros c' m'. by destruct arg.
Qed.

(** X16. Which functions [onTokenChanged] registers. An observer's [error]
    method, bound to the observer, is the error function whatever [onError]
    is. An observer without a [next] method is itself registered as the next
    function. A plain function is registered as it is, with [onError] as
    error function, or a no-op when [onError] is missing. *)
Theorem onTokenChanged_listeners app plp (onError onCompletion : option Fn) :
  (∀ o f, observer_error o = Some f →
     ∃ nextFn,
       (onTokenChanged (PlatformLogger := PlatformLogger)
          (Refresher := Refresher) app plp (Observer o) onError onCompletion).1
       = [addTokenListener app plp EXTERNAL nextFn (Bound f (self o))]) ∧
  (∀ o, next o = None →
     ∃ errorFn,
       onTokenChanged (PlatformLogger := PlatformLogger)
         (Refresher := Refresher) app plp (Observer o) onError onCompletion
       = ([addTokenListener app plp EXTERNAL (ObserverAsFunction (self o)) errorFn],
          [removeTokenListener app (ObserverAsFunction (self o))])) ∧
  (∀ f,
     onTokenChanged (PlatformLogger := PlatformLogger)
       (Refresher := Refresher) app plp (NextFn f) onError onCompletion
     = ([addTokenListener app plp EXTERNAL (Plain f)
           match onError with
           | Some g => Plain g
           | None => Noop
           end],
        [removeTokenListener app (Plain f)])).
Proof.
  split; [|split].
  - intros o f Hf. eexists. unfold onTokenChanged, errorFn_of. cbn.
    by rewrite Hf.
  - intros o Hn. eexists. unfold onTokenChanged, nextFn_of. by rewrite Hn.
  - intros f. by destruct onError.
Qed.

End AppCheckFacts.

(* ================================================================== *)
(** * Properties of the Analytics initialisation *)
(* ================================================================== *)

Section AnalyticsFacts.

Import Analytics.

Context {E Date : Type}.
Variables ORIGIN_KEY GA_FID_KEY : string.

Implicit Types (env : Env (E := E) (Date := Date)) (idb : IndexedDB E)
  (localId : option string) (options : option AnalyticsSettings)
  (fid : option string) (c : DynamicConfig)
  (m : gmap string string) (dl : string).

Local Abbreviation initializeAnalytics :=
  (initializeAnalytics ORIGIN_KEY GA_FID_KEY).
Local Abbreviation configProperties :=
  (configProperties ORIGIN_KEY GA_FID_KEY).

(** X17. [validateIndexedDB] answers [true] exactly when IndexedDB is
    available and can be opened. It warns exactly once when it answers
    [false] and not at all otherwise; when IndexedDB is not available the
    warning is the fixed text and the open check is not consulted. *)
Theorem validateIndexedDB_answer idb :
  ((validateIndexedDB idb).2 = true ↔
     isIndexedDBAvailable idb = true ∧ validateIndexedDBOpenable idb = None) ∧
  length (validateIndexedDB idb).1 = (if (validateIndexedDB idb).2 then 0 else 1) ∧
  (isIndexedDBAvailable idb = false →
   validateIndexedDB idb =
     ([warn_INDEXEDDB_UNAVAILABLE
         (inl "IndexedDB is not available in this environment.")], false)).
Proof.
  unfold validateIndexedDB.
  destruct (isIndexedDBAvailable idb), (validateIndexedDBOpenable idb);
    cbn; repeat split; try done; by intros [? ?].
Qed.

(** How the two promises settle together. *)
Lemma awaitAll_resolved env c fid :
  awaitAll env = inr (c, fid) ↔
  fetchDynamicConfigWithRetry env = inr c ∧ fidPromise env = inr fid.
Proof.
  unfold awaitAll.
  destruct (fetchDynamicConfigWithRetry env) as [e1|c'],
           (fidPromise env) as [e2|fid']; split;
    try done; try (by intros [? ?]).
  - by intros [= -> ->].
  - by intros [[= ->] [= ->]].
Qed.

Lemma fidPromise_resolved env fid :
  fidPromise env = inr fid ↔
  ((validateIndexedDB (indexedDB env)).2 = false ∧ fid = None) ∨
  ((validateIndexedDB (indexedDB env)).2 = true ∧
   ∃ id, installations_getId env = inr id ∧ fid = Some id).
Proof.
  unfold fidPromise.
  destruct (validateIndexedDB (indexedDB env)).2.
  - destruct (installations_getId env) as [e|id]; split.
    + done.
    + intros [[? _]|[_ (id & ? & _)]]; done.
    + intros [= <-]. right. split; [done|]. by exists id.
    + intros [[? _]|[_ (id' & [= <-] & ->)]]; done.
  - split.
    + intros [= <-]. by left.
    + intros [[_ ->]|[? _]]; done.
Qed.

(** The outcome of a call whose two promises resolve. *)
Lemma initializeAnalytics_resolved localId l m dl options env c fid :
  awaitAll env = inr (c, fid) →
  result (initializeAnalytics localId l m dl options env) =
    inr (measurementId c) ∧
  effects (initializeAnalytics localId l m dl options env) =
    (if findGtagScriptOnPage env then []
     else [insertScriptTag dl (measurementId c)])
    ++ [gtag_js (now env);
        gtag_config (measurementId c) (configProperties options fid)] ∧
  options_config (initializeAnalytics localId l m dl options env) =
    match options ≫= config with
    | Some _ => Some (configProperties options fid)
    | None => None
    end.
Proof.
  intros Ha. unfold Analytics.initializeAnalytics. by rewrite Ha.
Qed.

Lemma initializeAnalytics_rejected localId l m dl options env e :
  awaitAll env = inl e →
  result (initializeAnalytics localId l m dl options env) = inl e ∧
  effects (initializeAnalytics localId l m dl options env) = [] ∧
  options_config (initializeAnalytics localId l m dl options env) =
    options ≫= config.
Proof.
  intros Ha. unfold Analytics.initializeAnalytics. by rewrite Ha.
Qed.



(** X20. Whenever the config fetch resolves, the app id is recorded under
    the fetched measurement id, replacing an older entry and leaving every
    other entry alone, even if the call goes on to reject. When the fetch
    rejects, the map is unchanged and the rejection is logged as an error. *)
Theorem fetched_config_is_recorded localId l m dl options env :
  match fetchDynamicConfigWithRetry env with
  | inr c =>
      measurementIdToAppId (initializeAnalytics localId l m dl options env)
        !! measurementId c = Some (appId c) ∧
      ∀ k, k ≠ measurementId c →
           measurementIdToAppId (initializeAnalytics localId l m dl options env)
             !! k = m !! k
  | inl e =>
      measurementIdToAppId (initializeAnalytics localId l m dl options env) = m ∧
      configLog (initializeAnalytics localId l m dl options env) = [error e]
  end.
Proof.
  unfold Analytics.initializeAnalytics.
  destruct (fetchDynamicConfigWithRetry env) as [e|c] eqn:Hf;
    destruct (awaitAll env) as [e'|[c' fid]]; cbn;
    try (split; [by rewrite lookup_insert_eq
                |intros k Hk; by rewrite lookup_insert_ne]);
    done.
Qed.

(** X21. When the config fetch resolves, the config chain logs the mismatch
    warning, once, exactly when the local config has a non-empty measurement
    id that differs from the fetched one; otherwise it logs nothing. *)
Theorem measurement_id_mismatch_warning localId l m dl options env c :
  fetchDynamicConfigWithRetry env = inr c →
  configLog (initializeAnalytics localId l m dl options env) =
    match localId with
    | Some loc =>
        if decide (loc ≠ "" ∧ loc ≠ measurementId c)
        then [warn (mismatch_warning loc (measurementId c))]
        else []
    | None => []
    end.
Proof.
  intros Hf. unfold Analytics.initializeAnalytics. rewrite Hf.
  assert ((onConfigFetched (E := E) localId c m).2 =
          match localId with
          | Some loc =>
              if decide (loc ≠ "" ∧ loc ≠ measurementId c)
              then [warn (mismatch_warning loc (measurementId c))]
              else []
          | None => []
          end) as Hl.
  { unfold onConfigFetched. cbn. destruct localId as [loc|]; cbn.
    - case_decide as Hl; case_decide as Hr; try done.
      + destruct Hr. destruct Hl as [? ?]. split; [done|]. congruence.
      + destruct Hl. destruct Hr as [? ?]. split; [done|]. congruence.
    - case_decide as Hl; [by destruct Hl as [[] _]|done]. }
  destruct (awaitAll env) as [e'|[c' fid]]; cbn; exact Hl.
Qed.

(** The config object, property by property. *)
Lemma configProperties_lookup options fid k :
  configProperties options fid !! k =
    if decide (k = GA_FID_KEY ∧ is_Some fid) then CString <$> fid
    else if decide (k = "update") then Some (CBool true)
    else if decide (k = ORIGIN_KEY) then Some (CString "firebase")
    else default ∅ (options ≫= config) !! k.
Proof.
  unfold Analytics.configProperties. destruct fid as [f|].
  - destruct (decide (k = GA_FID_KEY)) as [->|Hk].
    + rewrite decide_True by (split; [done|by eexists]).
      by rewrite lookup_insert_eq.
    + rewrite decide_False by (by intros [? _]).
      rewrite lookup_insert_ne by done.
      destruct (decide (k = "update")) as [->|Hu];
        [by rewrite lookup_insert_eq|rewrite lookup_insert_ne by done].
      destruct (decide (k = ORIGIN_KEY)) as [->|Ho];
        [by rewrite lookup_insert_eq|by rewrite lookup_insert_ne].
  - rewrite decide_False by (by intros [_ [? ?]]).
    destruct (decide (k = "update")) as [->|Hu];
      [by rewrite lookup_insert_eq|rewrite lookup_insert_ne by done].
    destruct (decide (k = ORIGIN_KEY)) as [->|Ho];
      [by rewrite lookup_insert_eq|by rewrite lookup_insert_ne].
Qed.

(** X22. The Firebase properties win over the user's config. Provided the
    three property names are different, the config sent to gtag by a call
    that resolves has the origin ['firebase'] and [update = true] whatever
    the user's config says, and, when IndexedDB is usable, the installation
    id under the fid key. *)
Theorem firebase_properties_cannot_be_overridden
    localId l m dl options env mid :
  ORIGIN_KEY ≠ "update" → ORIGIN_KEY ≠ GA_FID_KEY → GA_FID_KEY ≠ "update" →
  result (initializeAnalytics localId l m dl options env) = inr mid →
  ∃ props,
    last (effects (initializeAnalytics localId l m dl options env)) =
      Some (gtag_config mid props) ∧
    props !! ORIGIN_KEY = Some (CString "firebase") ∧
    props !! "update" = Some (CBool true) ∧
    ((validateIndexedDB (indexedDB env)).2 = true →
     ∃ id, installations_getId env = inr id ∧
           props !! GA_FID_KEY = Some (CString id)).
Proof.
  intros H1 H2 H3 Hr.
  destruct (awaitAll env) as [e|[c fid]] eqn:Ha.
  { destruct (initializeAnalytics_rejected localId l m dl options env e Ha)
      as (Hr' & _). congruence. }
  destruct (initializeAnalytics_resolved localId l m dl options env c fid Ha)
    as (Hr' & -> & _).
  rewrite Hr' in Hr. injection Hr as <-.
  exists (configProperties options fid). split; [|split; [|split]].
  - by rewrite last_app.
  - rewrite configProperties_lookup.
    rewrite decide_False by (intros [? _]; done).
    rewrite decide_False by done. by rewrite decide_True.
  - rewrite configProperties_lookup.
    rewrite decide_False by (intros [? _]; done). by rewrite decide_True.
  - intros Hv. apply awaitAll_resolved in Ha as [_ Hf].
    apply fidPromise_resolved in Hf as [[? _]|[_ (id & Hid & ->)]];
      [congruence|].
    exists id. split; [done|]. rewrite configProperties_lookup.
    rewrite decide_True by (split; [done|by eexists]). done.
Qed.

(** X23. Every other property of the user's config reaches gtag unchanged
    and nothing else is added. When no installation id is available (IndexedDB
    is unusable), the fid property is not written either: a value the user
    put under that name stays. *)
Theorem user_config_passes_through options fid k :
  k ≠ ORIGIN_KEY → k ≠ "update" →
  (k ≠ GA_FID_KEY ∨ fid = None) →
  configProperties options fid !! k =
    match options with
    | Some {| config := Some user |} => user !! k
    | _ => None
    end.
Proof.
  intros H1 H2 H3. rewrite configProperties_lookup.
  rewrite decide_False
    by (intros [-> [f ->]]; destruct H3 as [?|?]; done).
  rewrite !decide_False by done.
  destruct options as [[[user|]]|]; done.
Qed.

(** X24. The config object is the caller's own: when [options.config] is
    given and the call resolves, that object is what gtag receives, so after
    the call the caller's [options.config] carries the Firebase properties
    too ([update = true], the fid key being a different name). Without
    [options.config] a new object is used and the options are left as they
    were. *)
Theorem options_config_is_mutated localId l m dl options env mid :
  GA_FID_KEY ≠ "update" →
  result (initializeAnalytics localId l m dl options env) = inr mid →
  match options ≫= config with
  | Some _ =>
      ∃ props,
        options_config (initializeAnalytics localId l m dl options env)
          = Some props ∧
        last (effects (initializeAnalytics localId l m dl options env))
          = Some (gtag_config mid props) ∧
        props !! "update" = Some (CBool true)
  | None =>
      options_config (initializeAnalytics localId l m dl options env) = None
  end.
Proof.
  intros Hne Hr.
  destruct (awaitAll env) as [e|[c fid]] eqn:Ha.
  { destruct (initializeAnalytics_rejected localId l m dl options env e Ha)
      as (Hr' & _). congruence. }
  destruct (initializeAnalytics_resolved localId l m dl options env c fid Ha)
    as (Hr' & -> & ->).
  rewrite Hr' in Hr. injection Hr as <-.
  destruct (options ≫= config) as [user|]; [|done].
  exists (configProperties options fid). split; [done|]. split.
  - by rewrite last_app.
  - rewrite configProperties_lookup.
    rewrite decide_False by (intros [? _]; done). by rewrite decide_True.
Qed.

(** X25. What a call that resolves does after the [await], in order: it
    inserts the gtag script tag for the data layer and the fetched
    measurement id only if the page has none, then issues the ['js'] command
    with the current date, and last the config command for the fetched
    measurement id. *)
Theorem resolved_initialization_effects localId l m dl options env mid :
  result (initializeAnalytics localId l m dl options env) = inr mid →
  ∃ props,
    effects (initializeAnalytics localId l m dl options env) =
      (if findGtagScriptOnPage env then [] else [insertScriptTag dl mid])
      ++ [gtag_js (now env); gtag_config mid props].
Proof.
  intros Hr.
  destruct (awaitAll env) as [e|[c fid]] eqn:Ha.
  { destruct (initializeAnalytics_rejected localId l m dl options env e Ha)
      as (Hr' & _). congruence. }
  destruct (initializeAnalytics_resolved localId l m dl options env c fid Ha)
    as (Hr' & -> & _).
  rewrite Hr' in Hr. injection Hr as <-. by eexists.
Qed.


End AnalyticsFacts.

(* ================================================================== *)
(** * The App Check and Analytics facts on sample inputs *)
(* ================================================================== *)

Import MoreSamples.

(** The function store keeps what is set and touches no other app. *)
Lemma fn_getState_setState (s : FnStore) app st :
  fn_getState (fn_setState app st s) app = st.
Proof. unfold fn_getState, fn_setState. by rewrite decide_True. Defined.


Lemma activate_succeeds_only_once_witness :
  AppCheck.result
    (sample_activate app1 (AppCheck.ReCAPTCHAV3Provider "site-key") () None
       fresh_store) = inr () ∧
  sample_activate app1 (AppCheck.CustomProvider "custom") () (Some false)
    (AppCheck.store_after
       (sample_activate app1 (AppCheck.ReCAPTCHAV3Provider "site-key") () None
          fresh_store)) =
    (AppCheck.store_after
       (sample_activate app1 (AppCheck.ReCAPTCHAV3Provider "site-key") () None
          fresh_store),
     [], inl (AppCheck.ALREADY_ACTIVATED "[DEFAULT]")).
Proof.
  apply (activate_succeeds_only_once (Fn := nat) fn_getState fn_setState
           fn_getState_setState fresh_store app1
           (AppCheck.ReCAPTCHAV3Provider "site-key") () None
           (AppCheck.CustomProvider "custom") () (Some false)).
  reflexivity.
Defined.

Lemma activate_auto_refresh_default_witness :
  AppCheck.isTokenAutoRefreshEnabled
    (fn_getState
       (AppCheck.store_after
          (sample_activate app1 (AppCheck.CustomProvider "custom") ()
             (Some false) fresh_store)) app1) = Some false.
Proof.
  apply (activate_auto_refresh_default (Fn := nat) fn_getState fn_setState
           fn_getState_setState fresh_store app1
           (AppCheck.CustomProvider "custom") () (Some false)).
  reflexivity.
Defined.

Lemma activate_wraps_recaptcha_provider_witness :
  AppCheck.provider
    (fn_getState
       (AppCheck.store_after
          (sample_activate app1 (AppCheck.ReCAPTCHAV3Provider "site-key") ()
             None fresh_store)) app1) =
    Some (AppCheck.ReCAPTCHAV3ProviderInternal app1 "site-key" ())
  ∧ AppCheck.effects
      (sample_activate app1 (AppCheck.ReCAPTCHAV3Provider "site-key") ()
         None fresh_store) =
    [AppCheck.initializeRecaptcha app1 "site-key"].
Proof.
  apply (activate_wraps_recaptcha_provider (Fn := nat) fn_getState fn_setState
           fn_getState_setState fresh_store app1
           (AppCheck.ReCAPTCHAV3Provider "site-key") () None).
  reflexivity.
Defined.


Lemma setTokenAutoRefreshEnabled_sets_flag_and_drives_refresher_witness :
  AppCheck.result (sample_setTokenAutoRefreshEnabled app1 true refreshing_store)
    = inr () ∧
  fn_getState
    (AppCheck.store_after
       (sample_setTokenAutoRefreshEnabled app1 true refreshing_store)) app1 =
    {| AppCheck.activated := true; AppCheck.provider := None;
       AppCheck.isTokenAutoRefreshEnabled := Some true;
       AppCheck.tokenRefresher := Some 7; AppCheck.rest := ["observer"] |} ∧
  AppCheck.effects
    (sample_setTokenAutoRefreshEnabled app1 true refreshing_store) =
    [AppCheck.tokenRefresher_start 7].
Proof.
  apply (setTokenAutoRefreshEnabled_sets_flag_and_drives_refresher (Fn := nat)
           fn_getState fn_setState fn_getState_setState
           refreshing_store app1 true).
Defined.

Lemma setTokenAutoRefreshEnabled_after_activate_witness :
  let s1 :=
    AppCheck.store_after
      (sample_activate app1 (AppCheck.CustomProvider "custom") () None
         fresh_store) in
  let s2 :=
    AppCheck.store_after (sample_setTokenAutoRefreshEnabled app1 false s1) in
  AppCheck.isTokenAutoRefreshEnabled (fn_getState s2 app1) = Some false ∧
  AppCheck.activated (fn_getState s2 app1) = true ∧
  AppCheck.provider (fn_getState s2 app1) =
    AppCheck.provider (fn_getState s1 app1).
Proof.
  apply (setTokenAutoRefreshEnabled_after_activate (Fn := nat)
           fn_getState fn_setState fn_getState_setState fresh_store app1
           (AppCheck.CustomProvider "custom") () None false).
  reflexivity.
Defined.


Lemma measurement_id_mismatch_warning_witness :
  Analytics.configLog
    (sample_initializeAnalytics (Some "G-LOCAL") [] ∅ "dataLayer" None good_env)
  = [Analytics.warn
       (Analytics.mismatch_warning "G-LOCAL"
          (Analytics.measurementId fetched_config))].
Proof.
  apply (measurement_id_mismatch_warning "origin" "firebase_id"
           (Some "G-LOCAL") [] ∅ "dataLayer" None good_env fetched_config).
  reflexivity.
Defined.

Lemma firebase_properties_cannot_be_overridden_witness :
  ∃ props,
    last (Analytics.effects
            (sample_initializeAnalytics None [] ∅ "dataLayer"
               (Some user_options) good_env)) =
      Some (Analytics.gtag_config "G-SERVER" props) ∧
    props !! "origin" = Some (Analytics.CString "firebase") ∧
    props !! "update" = Some (Analytics.CBool true) ∧
    ((Analytics.validateIndexedDB (Analytics.indexedDB good_env)).2 = true →
     ∃ id, Analytics.installations_getId good_env = inr id ∧
           props !! "firebase_id" = Some (Analytics.CString id)).
Proof.
  apply (firebase_properties_cannot_be_overridden "origin" "firebase_id"
           None [] ∅ "dataLayer" (Some user_options) good_env "G-SERVER").
  - discriminate.
  - discriminate.
  - discriminate.
  - reflexivity.
Defined.

Lemma user_config_passes_through_witness :
  sample_configProperties (Some user_options) None !! "firebase_id" =
    user_config !! "firebase_id".
Proof.
  apply (user_config_passes_through "origin" "firebase_id"
           (Some user_options) None "firebase_id").
  - discriminate.
  - discriminate.
  - by right.
Defined.

Lemma options_config_is_mutated_witness :
  ∃ props,
    Analytics.options_config
      (sample_initializeAnalytics None [] ∅ "dataLayer"
         (Some user_options) good_env) = Some props ∧
    last (Analytics.effects
            (sample_initializeAnalytics None [] ∅ "dataLayer"
               (Some user_options) good_env)) =
      Some (Analytics.gtag_config "G-SERVER" props) ∧
    props !! "update" = Some (Analytics.CBool true).
Proof.
  apply (options_config_is_mutated "origin" "firebase_id"
           None [] ∅ "dataLayer" (Some user_options) good_env "G-SERVER").
  - discriminate.
  - reflexivity.
Defined.

Lemma resolved_initialization_effects_witness :
  ∃ props,
    Analytics.effects
      (sample_initializeAnalytics None [] ∅ "dataLayer" None good_env) =
      [Analytics.insertScriptTag "dataLayer" "G-SERVER"]
      ++ [Analytics.gtag_js 0; Analytics.gtag_config "G-SERVER" props].
Proof.
  apply (resolved_initialization_effects "origin" "firebase_id"
           None [] ∅ "dataLayer" None good_env "G-SERVER").
  reflexivity.
Defined.

